(** * Gemini Runner: the per-frame entity simulation and the player controller

    A shallow embedding of [src/components/World/LevelManager.tsx] and
    [src/components/World/Player.tsx].

    Numbers.  JavaScript numbers are embedded as exact rationals ([Q]) where
    the source computes with fractions (positions, speeds, distances, the
    outcomes of [Math.random]) and as integers ([Z]) where the source only
    ever holds integers (lanes, levels, letter indices, points, timestamps).
    Rounding of IEEE doubles is not modelled.

    Effects.  The store callbacks ([takeDamage], [collectGem], ...), the
    [window] events and the audio calls are recorded, in program order, in a
    log.  [Math.random] reads an oracle stream through a cursor, [uuidv4]
    draws from a counter.  All of this is threaded by a small state monad. *)

From Stdlib Require Import QArith Qpower Qround Qminmax Qabs ZArith List String Bool Lia Lqa.
From Stdlib Require Import Permutation.
Import ListNotations.
Local Open Scope Q_scope.

(** ** Comparisons on numbers, as the source's [<], [>], [>=] *)

Definition Qltb (a b : Q) : bool := negb (Qle_bool b a).
Definition Qgtb (a b : Q) : bool := Qltb b a.
Definition Qgeb (a b : Q) : bool := Qle_bool b a.

Infix "<?" := Qltb (at level 70, no associativity) : Q_scope.
Infix ">?" := Qgtb (at level 70, no associativity) : Q_scope.
Infix ">=?" := Qgeb (at level 70, no associativity) : Q_scope.

(** ** types.ts and the store

    The two components import their types, their constants and the store
    from modules that are not part of this development.  The enumerations
    and the fields of [GameObject] are read off their uses in the two
    components; the constants are taken as parameters. *)

Inductive ObjectType : Type :=
  | OBSTACLE | GEM | LETTER | SHOP_PORTAL | ALIEN | MISSILE.

Inductive GameStatus : Type :=
  | MENU | PLAYING | SHOP | GAME_OVER | VICTORY.

Definition ObjectType_eqb (a b : ObjectType) : bool :=
  match a, b with
  | OBSTACLE, OBSTACLE | GEM, GEM | LETTER, LETTER
  | SHOP_PORTAL, SHOP_PORTAL | ALIEN, ALIEN | MISSILE, MISSILE => true
  | _, _ => false
  end.

Definition GameStatus_eqb (a b : GameStatus) : bool :=
  match a, b with
  | MENU, MENU | PLAYING, PLAYING | SHOP, SHOP
  | GAME_OVER, GAME_OVER | VICTORY, VICTORY => true
  | _, _ => false
  end.

(** A [position] is the mutable triple [[x, y, z]]. *)
Record Vec3 : Type := mkVec3 { vx : Q; vy : Q; vz : Q }.

(** [GameObject]; the optional fields are [None] when the object literal
    leaves them out. *)
Record GameObject : Type := mkObject {
  id : nat;
  type : ObjectType;
  position : Vec3;
  active : bool;
  color : option string;
  hasFired : option bool;
  points : option Z;
  value : option string;
  targetIndex : option Z
}.

(** The imported constants [LANE_WIDTH], [SPAWN_DISTANCE], [REMOVE_DISTANCE]
    and the colour table [GEMINI_COLORS]. *)
Class Types : Type := {
  LANE_WIDTH : Q;
  SPAWN_DISTANCE : Q;
  REMOVE_DISTANCE : Q;
  GEMINI_COLORS : list string
}.

(** What a component reads from [useStore()] at render time.  A frame or a
    handler sees the snapshot of the render that created it. *)
Record Store : Type := mkStore {
  status : GameStatus;
  speed : Q;
  collectedLetters : list Z;
  laneCount : Z;
  level : Z;
  hasDoubleJump : bool;
  isImmortalityActive : bool
}.

(** ** Observable effects *)

Inductive Sound : Type :=
  | playGemCollect | playLetterCollect | playDamage | playJump (double : bool).

Inductive Effect : Type :=
  | PlayerHit                                   (* window event 'player-hit' *)
  | ParticleBurst (at_ : Vec3) (col : string)   (* window event 'particle-burst' *)
  | CollectGem (amount : Z)
  | CollectLetter (index : Z)
  | OpenShop
  | SetDistance (d : Z)
  | TakeDamage
  | ActivateImmortality
  | Audio (s : Sound).

(** ** The simulation monad *)

Record Sim : Type := mkSim {
  random : nat -> Q;        (* successive outcomes of Math.random() *)
  randomIx : nat;
  uuidIx : nat;             (* next identifier handed out by uuidv4() *)
  isInvincible : bool;      (* Player.tsx: isInvincible.current *)
  lastDamageTime : Z;       (* Player.tsx: lastDamageTime.current *)
  log : list Effect         (* effects so far, oldest first *)
}.

Definition M (A : Type) : Type := Sim -> A * Sim.

Definition ret {A} (a : A) : M A := fun s => (a, s).
Definition bind {A B} (m : M A) (k : A -> M B) : M B :=
  fun s => let (a, s') := m s in k a s'.

Declare Scope sim_scope.
Delimit Scope sim_scope with sim.
Notation "x <- m ;; k" := (bind m (fun x => k))
  (at level 61, m at next level, right associativity) : sim_scope.
Notation "m ;;; k" := (bind m (fun _ => k))
  (at level 61, right associativity) : sim_scope.
Local Open Scope sim_scope.

Definition emit (e : Effect) : M unit :=
  fun s => (tt, mkSim (random s) (randomIx s) (uuidIx s)
                      (isInvincible s) (lastDamageTime s) (log s ++ [e])).

Definition Math_random : M Q :=
  fun s => (random s (randomIx s),
            mkSim (random s) (S (randomIx s)) (uuidIx s)
                  (isInvincible s) (lastDamageTime s) (log s)).

Definition uuidv4 : M nat :=
  fun s => (uuidIx s,
            mkSim (random s) (randomIx s) (S (uuidIx s))
                  (isInvincible s) (lastDamageTime s) (log s)).

Definition when (b : bool) (m : M unit) : M unit := if b then m else ret tt.

(** ** Player.tsx *)

Module Player.

Definition JUMP_FORCE : Q := 16.

(** The component's state and refs.  [groupY] is [groupRef.current.position.y],
    [None] while [groupRef.current] is null. *)
Record State : Type := mkState {
  lane : Z;
  isJumping : bool;
  velocityY : Q;
  jumpsPerformed : Z;
  spinRotation : Q;
  groupY : option Q
}.

(** [useState(0)] and the initial values of the refs. *)
Definition initial (attached : bool) : State :=
  mkState 0 false 0 0 0 (if attached then Some 0 else None).

Definition maxLaneOf (laneCount : Z) : Z := (laneCount / 2)%Z.

(** Lines 47-56, the effect on [status]. *)
Definition resetOnStatus (status : GameStatus) (p : State) : State :=
  match status with
  | PLAYING =>
      mkState (lane p) false 0 0 0
              (match groupY p with Some _ => Some 0 | None => None end)
  | _ => p
  end.

(** Lines 58-63, the effect on [laneCount] and [lane]. *)
Definition clampLane (laneCount : Z) (p : State) : State :=
  let maxLane := maxLaneOf laneCount in
  if (Z.abs (lane p) >? maxLane)%Z
  then mkState (Z.max (Z.min (lane p) maxLane) (- maxLane))
               (isJumping p) (velocityY p) (jumpsPerformed p)
               (spinRotation p) (groupY p)
  else p.

Definition setLane (f : Z -> Z) (p : State) : State :=
  mkState (f (lane p)) (isJumping p) (velocityY p) (jumpsPerformed p)
          (spinRotation p) (groupY p).

(** Lines 66-80. *)
Definition triggerJump (st : Store) (p : State) : M State :=
  let maxJumps := if hasDoubleJump st then 2%Z else 1%Z in
  if negb (isJumping p) then
    emit (Audio (playJump false)) ;;;
    ret (mkState (lane p) true JUMP_FORCE 1 (spinRotation p) (groupY p))
  else if (jumpsPerformed p <? maxJumps)%Z then
    emit (Audio (playJump true)) ;;;
    ret (mkState (lane p) (isJumping p) JUMP_FORCE (jumpsPerformed p + 1) 0
                 (groupY p))
  else ret p.

(** Lines 83-91. *)
Definition handleKeyDown (st : Store) (key : string) (p : State) : M State :=
  if negb (GameStatus_eqb (status st) PLAYING) then ret p
  else
    let maxLane := maxLaneOf (laneCount st) in
    if String.eqb key "ArrowLeft" then
      ret (setLane (fun l => Z.max (l - 1) (- maxLane)) p)
    else if String.eqb key "ArrowRight" then
      ret (setLane (fun l => Z.min (l + 1) maxLane) p)
    else if String.eqb key "ArrowUp" || String.eqb key "w" then
      triggerJump st p
    else if String.eqb key " " || String.eqb key "Enter" then
      emit ActivateImmortality ;;; ret p
    else ret p.

(** Lines 103-117; [deltaX], [deltaY] are the differences to the touch
    start. *)
Definition handleTouchEnd (st : Store) (deltaX deltaY : Q) (p : State) : M State :=
  if negb (GameStatus_eqb (status st) PLAYING) then ret p
  else
    let maxLane := maxLaneOf (laneCount st) in
    if (Qabs deltaX >? Qabs deltaY) && (Qabs deltaX >? 30) then
      if deltaX >? 0 then ret (setLane (fun l => Z.min (l + 1) maxLane) p)
      else ret (setLane (fun l => Z.max (l - 1) (- maxLane)) p)
    else if (Qabs deltaY >? Qabs deltaX) && (deltaY <? -(30)) then
      triggerJump st p
    else if (Qabs deltaX <? 10) && (Qabs deltaY <? 10) then
      emit ActivateImmortality ;;; ret p
    else ret p.

(** Lines 218-224, the listener of 'player-hit'; [now] is [Date.now()]. *)
Definition checkHit (st : Store) (now : Z) : M unit :=
  fun s =>
    if isInvincible s || isImmortalityActive st then (tt, s)
    else (tt, mkSim (random s) (randomIx s) (uuidIx s) true now
                    (log s ++ [Audio playDamage; TakeDamage])).

(** A logical input intent, as decoded by the two handlers. *)
Inductive Input : Type :=
  | KeyDown (key : string)
  | TouchEnd (deltaX deltaY : Q).

(** One input, followed by the lane effect React runs after the state
    change. *)
Definition handleInput (st : Store) (i : Input) (p : State) : M State :=
  p' <- match i with
        | KeyDown key => handleKeyDown st key p
        | TouchEnd dx dy => handleTouchEnd st dx dy p
        end ;;
  ret (clampLane (laneCount st) p').

Fixpoint handleInputs (st : Store) (is_ : list Input) (p : State) : M State :=
  match is_ with
  | [] => ret p
  | i :: rest => p' <- handleInput st i p ;; handleInputs st rest p'
  end.

(** The lane is one of the lanes of a road of [laneCount] lanes. *)
Definition laneInRange (laneCount : Z) (p : State) : Prop :=
  (- maxLaneOf laneCount <= lane p <= maxLaneOf laneCount)%Z.

(** The lane after each prefix of an input sequence. *)
Fixpoint lanesAlong (st : Store) (is_ : list Input) (p : State) (s : Sim) : list Z :=
  match is_ with
  | [] => []
  | i :: rest =>
      let (p', s') := handleInput st i p s in
      lane p' :: lanesAlong st rest p' s'
  end.

End Player.

(** ** LevelManager.tsx *)

Module LevelManager.

Notation "' pat <- m ;; k" := (bind m (fun x_ => match x_ with pat => k end))
  (at level 61, pat pattern, m at next level, right associativity) : sim_scope.

(** JavaScript's [a[i]] on an array, [None] for [undefined]. *)
Definition index {A} (l : list A) (i : Z) : option A :=
  if (i <? 0)%Z then None else nth_error l (Z.to_nat i).

Definition includes (l : list Z) (i : Z) : bool := existsb (Z.eqb i) l.

Definition BASE_LETTER_INTERVAL : Q := 150.
Definition MISSILE_SPEED : Q := 25.

(** Lines 41-43. *)
Definition getLetterInterval (level : Z) : Q :=
  BASE_LETTER_INTERVAL * Qpower 1.5 (Z.max 0 (level - 1)).

(** Lines 129-132. *)
Definition getRandomLane (laneCount : Z) : M Z :=
  let max := (laneCount / 2)%Z in
  r <- Math_random ;;
  ret (Qfloor (r * inject_Z (max * 2 + 1)) - max)%Z.

(** The component's refs and state (lines 147-154).  [playerObjRef] is
    passed to [frame] as the world position it resolves to. *)
Record State : Type := mkState {
  objectsRef : list GameObject;
  renderTrigger : nat;
  prevStatus : GameStatus;
  prevLevel : Z;
  distanceTraveled : Q;
  nextLetterDistance : Q
}.

(** In-place updates of one object. *)
Definition setZ (o : GameObject) (z : Q) : GameObject :=
  mkObject (id o) (type o) (mkVec3 (vx (position o)) (vy (position o)) z)
           (active o) (color o) (hasFired o) (points o) (value o) (targetIndex o).

Definition setHasFired (o : GameObject) (b : bool) : GameObject :=
  mkObject (id o) (type o) (position o) (active o) (color o) (Some b)
           (points o) (value o) (targetIndex o).

Definition setActive (o : GameObject) (b : bool) : GameObject :=
  mkObject (id o) (type o) (position o) b (color o) (hasFired o)
           (points o) (value o) (targetIndex o).

(** [obj.hasFired] as a condition: [undefined] and [false] are falsy. *)
Definition fired (o : GameObject) : bool :=
  match hasFired o with Some true => true | _ => false end.

Definition isType (o : GameObject) (t : ObjectType) : bool :=
  ObjectType_eqb (type o) t.

Definition isDamageSource (o : GameObject) : bool :=
  isType o OBSTACLE || isType o ALIEN || isType o MISSILE.

(** What one iteration of the loop of lines 206-293 leaves behind. *)
Record Step : Type := mkStep {
  moved : GameObject;              (* the object after its in-place updates *)
  spawned : option GameObject;     (* pushed on [newSpawns] *)
  keep : bool;
  changed : bool                   (* this iteration set [hasChanges] *)
}.

(** What the whole loop leaves behind. *)
Record Pass : Type := mkPass {
  keptObjects : list GameObject;
  newSpawns : list GameObject;
  mutated : list GameObject;       (* every object of [currentObjects], updated *)
  hasChanges : bool
}.

(** What happens to the mounted component: a render in which [status] or
    [level] has changed, which runs the effect of lines 156-182, or a frame. *)
Inductive Action : Type :=
  | Render (st : Store)
  | Frame (st : Store) (delta : Q) (now : Z) (playerObj : option Vec3).

Section WithTypes.
Context {T : Types}.

(** Lines 156-182, the effect on [status] and [level]. *)
Definition statusEffect (st : Store) (lm : State) : M State :=
  let isRestart := GameStatus_eqb (status st) PLAYING
                   && GameStatus_eqb (prevStatus lm) GAME_OVER in
  let isMenuReset := GameStatus_eqb (status st) MENU in
  let isLevelUp := negb (level st =? prevLevel lm)%Z
                   && GameStatus_eqb (status st) PLAYING in
  let isVictoryReset := GameStatus_eqb (status st) PLAYING
                        && GameStatus_eqb (prevStatus lm) VICTORY in
  if isMenuReset || isRestart || isVictoryReset then
    ret (mkState [] (S (renderTrigger lm)) (status st) (level st)
                 0 (getLetterInterval 1))
  else if isLevelUp && (level st >? 1)%Z then
    i <- uuidv4 ;;
    ret (mkState
           (filter (fun obj => vz (position obj) >? -(80)) (objectsRef lm)
            ++ [mkObject i SHOP_PORTAL (mkVec3 0 0 (-(100))) true
                         None None None None None])
           (S (renderTrigger lm)) (status st) (level st)
           (distanceTraveled lm)
           (distanceTraveled lm - SPAWN_DISTANCE + getLetterInterval (level st)))
  else if GameStatus_eqb (status st) GAME_OVER
          || GameStatus_eqb (status st) VICTORY then
    emit (SetDistance (Qfloor (distanceTraveled lm))) ;;;
    ret (mkState (objectsRef lm) (renderTrigger lm) (status st) (level st)
                 (distanceTraveled lm) (nextLetterDistance lm))
  else
    ret (mkState (objectsRef lm) (renderTrigger lm) (status st) (level st)
                 (distanceTraveled lm) (nextLetterDistance lm)).

(** Lines 207-211. *)
Definition moveAmount (safeDelta dist : Q) (obj : GameObject) : Q :=
  if isType obj MISSILE then dist + MISSILE_SPEED * safeDelta else dist.

Definition advance (safeDelta dist : Q) (obj : GameObject) : GameObject :=
  setZ obj (vz (position obj) + moveAmount safeDelta dist obj).

(** Lines 213-226, "Alien Shoot Logic". *)
Definition alienShoot (obj : GameObject) : M (GameObject * option GameObject) :=
  if isType obj ALIEN && active obj && negb (fired obj) then
    if vz (position obj) >? -(90) then
      i <- uuidv4 ;;
      ret (setHasFired obj true,
           Some (mkObject i MISSILE
                   (mkVec3 (vx (position obj)) 1.0 (vz (position obj) + 2))
                   true (Some "#ffffff"%string) None None None None))
    else ret (obj, None)
  else ret (obj, None).

(** Line 231. *)
Definition inZZone (playerPos : Vec3) (prevZ : Q) (obj : GameObject) : bool :=
  (prevZ <? vz playerPos + 2.0) && (vz (position obj) >? vz playerPos - 2.0).

(** Lines 246-255. *)
Definition isHit (playerPos : Vec3) (obj : GameObject) : bool :=
  let playerBottom := vy playerPos in
  let playerTop := vy playerPos + 1.5 in
  let objBottom := if isType obj OBSTACLE then 0 else vy (position obj) - 0.5 in
  let objTop := if isType obj OBSTACLE then 1.5 else vy (position obj) + 0.5 in
  (playerBottom <? objTop) && (playerTop >? objBottom).

(** [window.dispatchEvent(new Event('player-hit'))]: the event is
    delivered synchronously to the listener [Player.checkHit]. *)
Definition dispatchPlayerHit (st : Store) (now : Z) : M unit :=
  emit PlayerHit ;;; Player.checkHit st now.

(** [obj.points || 50] and [obj.color || '#ffffff']. *)
Definition pointsOr50 (obj : GameObject) : Z :=
  match points obj with
  | Some p => if (p =? 0)%Z then 50%Z else p
  | None => 50%Z
  end.

Definition colorOrWhite (obj : GameObject) : string :=
  match color obj with
  | Some c => if String.eqb c "" then "#ffffff"%string else c
  | None => "#ffffff"%string
  end.

(** Lines 266-282, "Collect Item". *)
Definition collectItem (obj : GameObject) : M unit :=
  when (isType obj GEM)
       (emit (CollectGem (pointsOr50 obj)) ;;; emit (Audio playGemCollect)) ;;;
  match targetIndex obj with
  | Some i => when (isType obj LETTER)
                   (emit (CollectLetter i) ;;; emit (Audio playLetterCollect))
  | None => ret tt
  end ;;;
  emit (ParticleBurst (position obj) (colorOrWhite obj)).

(** Lines 228-286: the collision tests of one object; yields the object,
    [keep] and whether [hasChanges] was set. *)
Definition collide (st : Store) (now : Z) (playerPos : Vec3) (prevZ : Q)
           (obj : GameObject) : M (GameObject * bool * bool) :=
  if active obj then
    if isType obj SHOP_PORTAL then
      if Qabs (vz (position obj) - vz playerPos) <? 2 then
        emit OpenShop ;;; ret (setActive obj false, false, true)
      else ret (obj, true, false)
    else if inZZone playerPos prevZ obj then
      if Qabs (vx (position obj) - vx playerPos) <? 0.8 then
        if isDamageSource obj then
          if isHit playerPos obj then
            dispatchPlayerHit st now ;;;
            emit (ParticleBurst (position obj) "#ff9999") ;;;
            ret (setActive obj false, true, true)
          else ret (obj, true, false)
        else
          if Qabs (vy (position obj) - vy playerPos) <? 2.5 then
            collectItem obj ;;;
            ret (setActive obj false, true, true)
          else ret (obj, true, false)
      else ret (obj, true, false)
    else ret (obj, true, false)
  else ret (obj, true, false).

(** Lines 206-293, one iteration. *)
Definition stepObject (st : Store) (now : Z) (safeDelta dist : Q)
           (playerPos : Vec3) (obj : GameObject) : M Step :=
  let prevZ := vz (position obj) in
  ' (o1, sp) <- alienShoot (advance safeDelta dist obj) ;;
  ' (o2, k, ch) <- collide st now playerPos prevZ o1 ;;
  let gone := vz (position o2) >? REMOVE_DISTANCE in
  ret (mkStep o2 sp (k && negb gone)
              (match sp with Some _ => true | None => false end || ch || gone)).

(** The iterations an object goes through in later frames, for as long
    as it stays in the store; each later frame comes with its own inputs
    and its own state of the world. *)
Fixpoint afterFrames (later : list (Store * Z * Q * Q * Vec3 * Sim))
         (obj : GameObject) : list Step :=
  match later with
  | [] => []
  | (st, now, safeDelta, dist, playerPos, s) :: rest =>
      let r := fst (stepObject st now safeDelta dist playerPos obj s) in
      r :: afterFrames rest (moved r)
  end.

(** Lines 206-293, the loop over [currentObjects]. *)
Fixpoint stepObjects (st : Store) (now : Z) (safeDelta dist : Q)
         (playerPos : Vec3) (objs : list GameObject) : M Pass :=
  match objs with
  | [] => ret (mkPass [] [] [] false)
  | obj :: rest =>
      r <- stepObject st now safeDelta dist playerPos obj ;;
      p <- stepObjects st now safeDelta dist playerPos rest ;;
      ret (mkPass
             (if keep r then moved r :: keptObjects p else keptObjects p)
             (match spawned r with
              | Some m => m :: newSpawns p
              | None => newSpawns p
              end)
             (moved r :: mutated p)
             (changed r || hasChanges p))
  end.

(** Lines 298-300: the forward coordinate of the furthest static object. *)
Definition furthestZ (kept : list GameObject) : Q :=
  let staticObjects := filter (fun o => negb (isType o MISSILE)) kept in
  match map (fun o => vz (position o)) staticObjects with
  | [] => -(20)
  | z :: zs => fold_left Qmin zs z
  end.

Definition target : list string :=
  ["G"; "E"; "M"; "I"; "N"; "I"]%string.

(** [undefined]-propagating lookup [table[i]] for a possibly undefined [i]. *)
Definition lookup {A} (table : list A) (i : option Z) : option A :=
  match i with Some i => index table i | None => None end.

(** What the spawning code of lines 302-386 pushes on [keptObjects], the
    new value of [nextLetterDistance.current], and whether it set
    [hasChanges]. *)
Definition spawnPolicy (st : Store) (distance nextLetter : Q)
           (kept : list GameObject) : M (list GameObject * Q * bool) :=
  let furthest := furthestZ kept in
  if furthest >? - SPAWN_DISTANCE then
    let minGap := 12 + speed st * 0.4 in
    let spawnZ := Qmin (furthest - minGap) (- SPAWN_DISTANCE) in
    let isLetterDue := distance >=? nextLetter in
    if isLetterDue then
      lane <- getRandomLane (laneCount st) ;;
      let availableIndices :=
        filter (fun i => negb (includes (collectedLetters st) i))
               [0; 1; 2; 3; 4; 5]%Z in
      if (0 <? List.length availableIndices)%nat then
        r <- Math_random ;;
        let chosenIndex :=
          index availableIndices
                (Qfloor (r * inject_Z (Z.of_nat (List.length availableIndices)))) in
        i <- uuidv4 ;;
        ret ([mkObject i LETTER
                (mkVec3 (inject_Z lane * LANE_WIDTH) 1.0 spawnZ) true
                (lookup GEMINI_COLORS chosenIndex) None None
                (lookup target chosenIndex) chosenIndex],
             nextLetter + getLetterInterval (level st), true)
      else
        i <- uuidv4 ;;
        ret ([mkObject i GEM
                (mkVec3 (inject_Z lane * LANE_WIDTH) 1.2 spawnZ) true
                (Some "#FFD700"%string) None (Some 50%Z) None None],
             nextLetter, true)
    else
      r <- Math_random ;;
      if r >? 0.1 then
        r' <- Math_random ;;
        let isObstacle := r' >? 0.25 in
        if isObstacle then
          spawnAlien <- (if (level st >=? 2)%Z
                         then r'' <- Math_random ;; ret (r'' <? 0.2)
                         else ret false) ;;
          if spawnAlien then
            lane <- getRandomLane (laneCount st) ;;
            i <- uuidv4 ;;
            ret ([mkObject i ALIEN
                    (mkVec3 (inject_Z lane * LANE_WIDTH) 1.5 spawnZ) true
                    (Some "#00BFFF"%string) (Some false) None None None],
                 nextLetter, true)
          else
            lane <- getRandomLane (laneCount st) ;;
            i <- uuidv4 ;;
            let obstacle :=
              mkObject i OBSTACLE
                (mkVec3 (inject_Z lane * LANE_WIDTH) 0 spawnZ) true
                (Some "#ffffff"%string) None None None None in
            r3 <- Math_random ;;
            if r3 <? 0.3 then
              j <- uuidv4 ;;
              ret ([obstacle;
                    mkObject j GEM
                      (mkVec3 (inject_Z lane * LANE_WIDTH) 2.5 spawnZ) true
                      (Some "#FFD700"%string) None (Some 100%Z) None None],
                   nextLetter, true)
            else ret ([obstacle], nextLetter, true)
        else
          lane <- getRandomLane (laneCount st) ;;
          i <- uuidv4 ;;
          ret ([mkObject i GEM
                  (mkVec3 (inject_Z lane * LANE_WIDTH) 1.2 spawnZ) true
                  (Some "#FFD700"%string) None (Some 50%Z) None None],
               nextLetter, true)
      else ret ([], nextLetter, false)
  else ret ([], nextLetter, false).

(** The pose the collision tests use (lines 199-200): the world position
    of [playerObjRef.current], the zero vector while that is null. *)
Definition playerPosOf (playerObj : option Vec3) : Vec3 :=
  match playerObj with
  | Some worldPosition => worldPosition
  | None => mkVec3 0 0 0
  end.

(** Lines 191-392, the frame callback.  [delta] is the frame time, [now]
    the clock read by the 'player-hit' listener, [playerObj] the world
    position of [playerObjRef.current] ([None] while it is null).

    The objects are updated in place, so when [hasChanges] stays false
    [objectsRef.current] still holds every object, updated. *)
Definition frame (st : Store) (delta : Q) (now : Z) (playerObj : option Vec3)
           (lm : State) : M State :=
  if negb (GameStatus_eqb (status st) PLAYING) then ret lm
  else
    let safeDelta := Qmin delta 0.05 in
    let dist := speed st * safeDelta in
    let distance := distanceTraveled lm + dist in
    let playerPos := playerPosOf playerObj in
    p <- stepObjects st now safeDelta dist playerPos (objectsRef lm) ;;
    let kept := keptObjects p ++ newSpawns p in
    ' (fresh, nextLetter, spawnedSome) <-
        spawnPolicy st distance (nextLetterDistance lm) kept ;;
    if hasChanges p || spawnedSome then
      ret (mkState (kept ++ fresh) (S (renderTrigger lm))
                   (prevStatus lm) (prevLevel lm) distance nextLetter)
    else
      ret (mkState (mutated p) (renderTrigger lm)
                   (prevStatus lm) (prevLevel lm) distance nextLetter).

(** Successive frames under one render of the store; each comes with
    its frame time, its clock and the player reference's position. *)
Fixpoint frames (st : Store) (inputs : list (Q * Z * option Vec3)) (lm : State)
  : M State :=
  match inputs with
  | [] => ret lm
  | (delta, now, playerObj) :: rest =>
      lm' <- frame st delta now playerObj lm ;; frames st rest lm'
  end.

Definition act (a : Action) (lm : State) : M State :=
  match a with
  | Render st => statusEffect st lm
  | Frame st delta now playerObj => frame st delta now playerObj lm
  end.

Fixpoint run (actions : list Action) (lm : State) : M State :=
  match actions with
  | [] => ret lm
  | a :: rest => lm' <- act a lm ;; run rest lm'
  end.

End WithTypes.

(** The refs at mount, in a store showing [st]. *)
Definition initial (st : Store) : State :=
  mkState [] 0 (status st) (level st) 0 BASE_LETTER_INTERVAL.

End LevelManager.

(** ** Math.sin, Math.cos and Math.PI

    The trigonometric functions have no counterpart on the rationals; the
    code that uses them is parameterised by them. *)
Class Trig : Type := {
  Math_sin : Q -> Q;
  Math_cos : Q -> Q;
  Math_PI : Q
}.

(** ** LevelManager.tsx: the particle system *)

Module Particles.

Definition PARTICLE_COUNT : nat := 400.

Record Particle : Type := mkParticle {
  life : Q;
  pos : Vec3;
  vel : Vec3;
  tint : string        (* [color] *)
}.

(** Lines 53-58, the pool at mount. *)
Definition pool : list Particle :=
  repeat (mkParticle 0 (mkVec3 0 0 0) (mkVec3 0 0 0) "#ffffff") PARTICLE_COUNT.

Definition burstAmount : nat := 30.

Section WithTrig.
Context {G : Trig}.

(** Lines 69-82, what happens to one dead particle. *)
Definition revive (position : Vec3) (color : string) : M Particle :=
  r1 <- Math_random ;;
  r2 <- Math_random ;;
  let theta := r2 * Math_PI * 2 in
  r3 <- Math_random ;;
  let phi := r3 * Math_PI in
  r4 <- Math_random ;;
  let speed := 2 + r4 * 5 in
  ret (mkParticle (0.8 + r1 * 0.4) position
                  (mkVec3 (Math_sin phi * Math_cos theta * speed)
                          (Math_sin phi * Math_sin theta * speed)
                          (Math_cos phi * speed))
                  color).

(** Lines 66-86, the loop of [handleExplosion] from some index on, [spawned]
    particles having been revived so far. *)
Fixpoint explode (position : Vec3) (color : string) (spawned : nat)
         (particles : list Particle) : M (list Particle) :=
  match particles with
  | [] => ret []
  | p :: rest =>
      if Qle_bool (life p) 0 then
        p' <- revive position color ;;
        if (burstAmount <=? S spawned)%nat then ret (p' :: rest)
        else rest' <- explode position color (S spawned) rest ;;
             ret (p' :: rest')
      else
        rest' <- explode position color spawned rest ;;
        ret (p :: rest')
  end.

(** Lines 61-87, the listener of 'particle-burst'. *)
Definition handleExplosion (position : Vec3) (color : string)
           (particles : list Particle) : M (list Particle) :=
  explode position color 0 particles.

End WithTrig.

(** Lines 98-101, one particle in a frame. *)
Definition age (safeDelta : Q) (p : Particle) : Particle :=
  if life p >? 0 then
    mkParticle (life p - safeDelta)
               (mkVec3 (vx (pos p) + vx (vel p) * safeDelta)
                       (vy (pos p) + vy (vel p) * safeDelta)
                       (vz (pos p) + vz (vel p) * safeDelta))
               (mkVec3 (vx (vel p)) (vy (vel p) - safeDelta * 2) (vz (vel p)))
               (tint p)
  else p.

(** Lines 93-119, the frame callback; [mesh] tells whether [mesh.current]
    is set.  The instance matrices it writes are not modelled. *)
Definition useFrame (mesh : bool) (delta : Q) (particles : list Particle)
  : list Particle :=
  if negb mesh then particles
  else map (age (Qmin delta 0.1)) particles.

Definition alive (p : Particle) : bool := life p >? 0.

End Particles.

(** ** Player.tsx: the animation loop *)

Module PlayerFrame.
Import Player.

Definition GRAVITY : Q := 50.

(** [THREE.MathUtils.lerp]. *)
Definition lerp (x y t : Q) : Q := (1 - t) * x + t * y.

(** What the loop reads and writes besides the component's refs: the
    group's [position.x] and its [visible] flag. *)
Record Pose : Type := mkPose {
  posX : Q;
  visible : bool
}.

Section WithConstants.
Context {T : Types} {G : Trig}.

(** Lines 141-159, "Physics (Jump)"; [bodyMesh] tells whether
    [bodyMeshRef.current] is set. *)
Definition physics (delta : Q) (bodyMesh : bool) (y : Q) (p : State) : State :=
  if isJumping p then
    let y1 := y + velocityY p * delta in
    let v1 := velocityY p - GRAVITY * delta in
    let p1 :=
      if Qle_bool y1 0
      then mkState (lane p) false 0 0 (spinRotation p) (Some 0)
      else mkState (lane p) true v1 (jumpsPerformed p) (spinRotation p) (Some y1) in
    if (jumpsPerformed p1 =? 2)%Z && bodyMesh then
      let spin := spinRotation p1 - delta * 15 in
      mkState (lane p1) (isJumping p1) (velocityY p1) (jumpsPerformed p1)
              (if spin <? - Math_PI * 2 then - Math_PI * 2 else spin)
              (groupY p1)
    else p1
  else p.

(** Lines 197-214, "Invincibility / Immortality Visual": the new
    [visible]; the invincibility flag lives in the world. *)
Definition flicker (st : Store) (now : Z) : M bool :=
  fun s =>
    if isInvincible s || isImmortalityActive st then
      let (s', v) :=
        if isInvincible s then
          if (now - lastDamageTime s >? 1500)%Z
          then (mkSim (random s) (randomIx s) (uuidIx s) false
                      (lastDamageTime s) (log s), true)
          else (s, ((now / 50) mod 2 =? 0)%Z)
        else (s, true) in
      (if isImmortalityActive st then true else v, s')
    else (true, s).

(** Lines 128-215, the frame callback.  The rotations, the waddle and the
    shadow it also writes are not modelled. *)
Definition useFrame (st : Store) (delta : Q) (now : Z) (bodyMesh : bool)
           (p : State) (pose : Pose) : M (State * Pose) :=
  match groupY p with
  | None => ret (p, pose)
  | Some y =>
      if negb (GameStatus_eqb (status st) PLAYING)
         && negb (GameStatus_eqb (status st) SHOP)
      then ret (p, pose)
      else
        let targetX := inject_Z (lane p) * LANE_WIDTH in
        let x := lerp (posX pose) targetX (delta * 12) in
        let p' := physics delta bodyMesh y p in
        v <- flicker st now ;;
        ret (p', mkPose x v)
  end.

(** What happens to the mounted player: an input, a frame, or a render
    under a new status, which runs the reset effect. *)
Inductive Action : Type :=
  | Input_ (st : Store) (i : Input)
  | Frame (st : Store) (delta : Q) (now : Z) (bodyMesh : bool)
  | Status (status : GameStatus).

Definition act (a : Action) (pp : State * Pose) : M (State * Pose) :=
  match a with
  | Input_ st i => p' <- handleInput st i (fst pp) ;; ret (p', snd pp)
  | Frame st delta now bodyMesh => useFrame st delta now bodyMesh (fst pp) (snd pp)
  | Status status => ret (resetOnStatus status (fst pp), snd pp)
  end.

Fixpoint run (actions : list Action) (pp : State * Pose) : M (State * Pose) :=
  match actions with
  | [] => ret pp
  | a :: rest => pp' <- act a pp ;; run rest pp'
  end.

End WithConstants.

End PlayerFrame.

(** ** The shop screen of the HUD *)

Module Shop.

(** [ShopItem]; [icon] names the icon component, [oneTime] is [None] where
    the literal leaves it out. *)
Record ShopItem : Type := mkItem {
  itemId : string;
  name : string;
  description : string;
  cost : Z;
  icon : string;
  oneTime : option bool
}.

Definition SHOP_ITEMS : list ShopItem :=
  [ mkItem "DOUBLE_JUMP" "DOUBLE HOP" "Jump again in mid-air! Hop hop!"
           1000 "ArrowUpCircle" (Some true);
    mkItem "MAX_LIFE" "EXTRA HEART" "Start with more love!"
           1500 "Heart" None;
    mkItem "HEAL" "YUMMY FISH" "Heal 1 Heart instantly."
           1000 "PlusCircle" None;
    mkItem "IMMORTAL" "GOLDEN COAT" "Invincible for 5s! (Press Space)"
           3000 "Shield" (Some true) ]%string.

(** The predicate of [SHOP_ITEMS.filter]. *)
Definition available (hasDoubleJump hasImmortality : bool) (item : ShopItem) : bool :=
  if String.eqb (itemId item) "DOUBLE_JUMP" && hasDoubleJump then false
  else if String.eqb (itemId item) "IMMORTAL" && hasImmortality then false
  else true.

(** [pool.sort(() => 0.5 - Math.random())]: the comparator ignores its
    arguments, so which order comes out is up to the engine; all that is
    used of it is that it rearranges the array. *)
Class Shuffle : Type := {
  sortRandomly : list ShopItem -> list ShopItem;
  sortRandomly_rearranges : forall l, Permutation l (sortRandomly l)
}.

(** The items the shop screen shows, computed once when it mounts. *)
Definition items {S : Shuffle} (hasDoubleJump hasImmortality : bool) : list ShopItem :=
  let pool := filter (available hasDoubleJump hasImmortality) SHOP_ITEMS in
  firstn 3 (sortRandomly pool).

(** [canAfford]. *)
Definition canAfford (score : Z) (item : ShopItem) : bool := (score >=? cost item)%Z.

End Shop.

(** ** The lane guides of the environment *)

Module LaneGuides.

Section WithTypes.
Context {T : Types}.

(** The [x] of the separator lines, left to right. *)
Definition separators (laneCount : Z) : list Q :=
  let startX := - (inject_Z laneCount * LANE_WIDTH) / 2 in
  if (laneCount <? 0)%Z then []
  else map (fun i => startX + inject_Z (Z.of_nat i) * LANE_WIDTH)
           (seq 0 (S (Z.to_nat laneCount))).

End WithTypes.

End LaneGuides.

(** ** Vocabulary of the properties *)

(** [emits P m]: whatever the state [m] starts in, it only appends to the
    log, and every effect it appends satisfies [P]. *)
Definition emits {A} (P : Effect -> Prop) (m : M A) : Prop :=
  forall s, exists l, log (snd (m s)) = log s ++ l /\ Forall P l.

(** [silent m]: [m] has no observable effect. *)
Definition silent {A} (m : M A) : Prop := emits (fun _ => False) m.

(** Number of effects of a kind in a log. *)
Definition count (kind : Effect -> bool) (l : list Effect) : nat :=
  List.length (filter kind l).

Definition isTakeDamage (e : Effect) : bool :=
  match e with TakeDamage => true | _ => false end.

Definition isOpenShop (e : Effect) : bool :=
  match e with OpenShop => true | _ => false end.


(** The entities of a kind held by an entity store. *)
Definition ofType (t : ObjectType) (objs : list GameObject) : list GameObject :=
  filter (fun o => LevelManager.isType o t) objs.

(** The player is protected against damage. *)
Definition protected (st : Store) (s : Sim) : bool :=
  isInvincible s || isImmortalityActive st.

(** A portal that this frame's move ([dist] forward) brings within the
    trigger tolerance of the player's forward coordinate. *)
Definition entersShop (playerPos : Vec3) (dist : Q) (o : GameObject) : bool :=
  LevelManager.isType o SHOP_PORTAL && active o
  && (Qabs (vz (position o) + dist - vz playerPos) <? 2).

(** The effect takes its level-up branch: the status is Playing, not on a
    restart, and the level has changed to a level above 1. *)
Definition levelUpTransition (st : Store) (lm : LevelManager.State) : Prop :=
  status st = PLAYING
  /\ LevelManager.prevStatus lm <> GAME_OVER /\ LevelManager.prevStatus lm <> VICTORY
  /\ level st <> LevelManager.prevLevel lm /\ (1 < level st)%Z.




(** The entities carry pairwise different identifiers, all handed out while
    the identifier counter went from [from] up to, but not including,
    [upto]. *)
Definition idsWithin (from upto : nat) (objs : list GameObject) : Prop :=
  NoDup (map id objs) /\ Forall (fun o => (from <= id o < upto)%nat) objs.

(** How a particle of the pool relates to itself after a burst at
    [position] in [color]. *)
Definition burstRelates (position : Vec3) (color : string)
           (p p' : Particles.Particle) : Prop :=
  (Particles.alive p = true -> p' = p)
  /\ (p' = p
      \/ (Particles.alive p = false /\ Particles.pos p' = position /\ Particles.tint p' = color
          /\ 0.8 <= Particles.life p' /\ Particles.life p' < 1.2)).

(** The player's jump state is consistent: on the ground it has no jump
    pending, no vertical velocity and height 0; in the air it has used one
    jump or two; and its height is never negative. *)
Definition jumpConsistent (p : Player.State) : Prop :=
  (Player.isJumping p = false ->
   Player.jumpsPerformed p = 0%Z /\ Player.velocityY p = 0
   /\ (Player.groupY p = None \/ Player.groupY p = Some 0))
  /\ (Player.isJumping p = true -> (1 <= Player.jumpsPerformed p <= 2)%Z)
  /\ match Player.groupY p with Some y => 0 <= y | None => True end.

(** The jump state with at most [n] jumps used. *)
Definition jumpsWithin (n : Z) (p : Player.State) : Prop :=
  jumpConsistent p /\ (Player.jumpsPerformed p <= n)%Z.

(** No input of the run comes from a store that owns the double jump. *)
Definition withoutDoubleJump (actions : list PlayerFrame.Action) : Prop :=
  Forall (fun a => match a with
                   | PlayerFrame.Input_ st _ => hasDoubleJump st = false
                   | _ => True
                   end) actions.

(** What the player's protection and the damage count can do: stay, or go
    from unprotected to invincible at the cost of one [takeDamage]. *)
Definition damageStep (s s' : Sim) : Prop :=
  (isInvincible s' = isInvincible s
   /\ count isTakeDamage (log s') = count isTakeDamage (log s))
  \/ (isInvincible s = false /\ isInvincible s' = true
      /\ count isTakeDamage (log s') = S (count isTakeDamage (log s))).

(** ** Scenarios

    Concrete constants, stores and entity sets on which the properties are
    exercised. *)

Module Scenario.
Import LevelManager.

Definition palette : list string :=
  ["#2979ff"; "#ff1744"; "#ffea00"; "#2979ff"; "#00e676"; "#ff1744"]%string.

(** Two settings of the imported constants; the second has the spawn
    distance of the specification's open-road scenario. *)
Definition types120 : Types := Build_Types 2.2 120 20 palette.
Definition types60 : Types := Build_Types 2.2 60 20 palette.

(** A world in which every [Math.random()] returns [r], nothing has been
    logged and the player is not invincible. *)
Definition world (r : Q) : Sim := mkSim (fun _ => r) 0 0 false 0 [].

Definition playing (level : Z) (collected : list Z) : Store :=
  mkStore PLAYING 10 collected 5 level false false.

Definition origin : Vec3 := mkVec3 0 0 0.

(** Entities one unit ahead of the origin, in the middle lane. *)
Definition snowman : GameObject :=
  mkObject 1 OBSTACLE (mkVec3 0 0 (-(1))) true (Some "#ffffff"%string)
           None None None None.
Definition gem : GameObject :=
  mkObject 2 GEM (mkVec3 0 1.2 (-(1))) true (Some "#FFD700"%string)
           None (Some 50%Z) None None.
Definition portal : GameObject :=
  mkObject 3 SHOP_PORTAL (mkVec3 0 0 (-(1))) true None None None None None.

Definition crowded : State := mkState [snowman; gem; portal] 0 PLAYING 1 0 150.

(** An alien as the spawning code creates it (height 1.5, not fired),
    about to pass the fire threshold. *)
Definition alien : GameObject :=
  mkObject 7 ALIEN (mkVec3 2.2 1.5 (-(90.2))) true (Some "#00BFFF"%string)
           (Some false) None None None.

(** An alien that has not fired, 3.5 ahead of the player in its lane. *)
Definition lateAlien : GameObject :=
  mkObject 7 ALIEN (mkVec3 0 1.5 (-(3.5))) true (Some "#00BFFF"%string)
           (Some false) None None None.

Definition ambush : State := mkState [lateAlien] 0 PLAYING 1 0 150.

(** A lone snowman 40 ahead, two lanes to the right. *)
Definition farSnowman : GameObject :=
  mkObject 1 OBSTACLE (mkVec3 4.4 0 (-(40))) true (Some "#ffffff"%string)
           None None None None.

Definition level3 : Store := mkStore PLAYING 30 [] 7 3 false false.


(** Two steps to the right, death, restart. *)
Definition diedInLaneTwo : Player.State :=
  Player.resetOnStatus GAME_OVER
    (fst (Player.handleInputs (playing 1 [])
            [Player.KeyDown "ArrowRight"; Player.KeyDown "ArrowRight"]
            (Player.initial true) (world 0.5))).

End Scenario.

(** Further concrete inputs. *)

Module Cases.
Import LevelManager Scenario.

(** Rational stand-ins for the trigonometric functions, good enough to run
    the particle code on. *)
Definition sampleTrig : Trig :=
  Build_Trig (fun x => x - x * x * x / 6) (fun x => 1 - x * x / 2) (355 # 113).

(** A shuffle that reverses the array. *)
Definition reversing : Shop.Shuffle :=
  Shop.Build_Shuffle (fun l => rev l) (fun l => Permutation_rev l).

(** A pool of four particles, the second one still alive. *)
Definition fourParticles : list Particles.Particle :=
  [ Particles.mkParticle 0 origin origin "#ffffff";
    Particles.mkParticle 0.5 origin (mkVec3 1 2 0) "#ff9999";
    Particles.mkParticle 0 origin origin "#ffffff";
    Particles.mkParticle (-(0.05)) origin origin "#ffffff" ].

(** A letter "M" one unit ahead of the origin, in the middle lane. *)
Definition letterM : GameObject :=
  mkObject 4 LETTER (mkVec3 0 1.0 (-(1))) true (Some "#ffea00"%string)
           None None (Some "M"%string) (Some 2%Z).

(** A snowman that was already hit. *)
Definition meltedSnowman : GameObject :=
  mkObject 1 OBSTACLE (mkVec3 0 0 (-(1))) false (Some "#ffffff"%string)
           None None None None.

(** A store with two entities carrying the identifiers 1 and 2, the
    counter standing at 5. *)
Definition numbered : State := mkState [snowman; gem] 0 PLAYING 1 0 150.
Definition counterAtFive : Sim := mkSim (fun _ => 0.5) 0 5 false 0 [].

Definition standing : Player.State := Player.initial true.
Definition atRest : PlayerFrame.Pose := PlayerFrame.mkPose 0 true.

End Cases.

(** * Properties *)

(** ** Comparisons *)

Lemma Qltb_lt (a b : Q) : (a <? b) = true <-> a < b.
Proof.
  unfold Qltb. rewrite negb_true_iff.
  split; intro H.
  - apply Qnot_le_lt. intro Hle. apply Qle_bool_iff in Hle. congruence.
  - destruct (Qle_bool b a) eqn:E; [|reflexivity].
    apply Qle_bool_iff in E. exfalso. apply (Qlt_not_le _ _ H E).
Qed.

Lemma Qltb_ge (a b : Q) : (a <? b) = false <-> b <= a.
Proof.
  unfold Qltb. rewrite negb_false_iff. apply Qle_bool_iff.
Qed.

Lemma Qgtb_gt (a b : Q) : (a >? b) = true <-> b < a.
Proof. apply Qltb_lt. Qed.

Lemma GameStatus_eqb_eq (a b : GameStatus) : GameStatus_eqb a b = true <-> a = b.
Proof. destruct a, b; simpl; split; congruence. Qed.

(** ** The player's lane *)

Section PlayerLane.
Import Player.

Lemma triggerJump_lane st p s : lane (fst (triggerJump st p s)) = lane p.
Proof.
  unfold triggerJump.
  destruct (negb (isJumping p)); [reflexivity|].
  destruct (jumpsPerformed p <? _)%Z; reflexivity.
Qed.

Lemma clampLane_inRange laneCount p :
  (0 <= maxLaneOf laneCount)%Z -> laneInRange laneCount (clampLane laneCount p).
Proof.
  intro Hmax. unfold laneInRange, clampLane.
  destruct (Z.abs (lane p) >? maxLaneOf laneCount)%Z eqn:E; simpl.
  - lia.
  - rewrite Z.gtb_ltb in E. apply Z.ltb_ge in E. lia.
Qed.

Lemma handleKeyDown_inRange st key p s :
  (0 <= maxLaneOf (laneCount st))%Z ->
  laneInRange (laneCount st) p ->
  laneInRange (laneCount st) (fst (handleKeyDown st key p s)).
Proof.
  intros Hmax Hp. unfold handleKeyDown.
  destruct (negb _); [exact Hp|].
  destruct (String.eqb key "ArrowLeft").
  { unfold laneInRange in *; simpl; lia. }
  destruct (String.eqb key "ArrowRight").
  { unfold laneInRange in *; simpl; lia. }
  destruct (_ || _).
  { unfold laneInRange. rewrite triggerJump_lane. exact Hp. }
  destruct (_ || _); exact Hp.
Qed.

Lemma handleTouchEnd_inRange st dx dy p s :
  (0 <= maxLaneOf (laneCount st))%Z ->
  laneInRange (laneCount st) p ->
  laneInRange (laneCount st) (fst (handleTouchEnd st dx dy p s)).
Proof.
  intros Hmax Hp. unfold handleTouchEnd.
  destruct (negb _); [exact Hp|].
  destruct (_ && _).
  { destruct (dx >? 0); unfold laneInRange in *; simpl; lia. }
  destruct (_ && _).
  { unfold laneInRange. rewrite triggerJump_lane. exact Hp. }
  destruct (_ && _); exact Hp.
Qed.

Lemma handleInput_inRange st i p s :
  (0 <= maxLaneOf (laneCount st))%Z ->
  laneInRange (laneCount st) p ->
  laneInRange (laneCount st) (fst (handleInput st i p s)).
Proof.
  intros Hmax Hp. unfold handleInput, bind.
  destruct i as [key | dx dy].
  - destruct (handleKeyDown st key p s) as [p' s'] eqn:E. simpl.
    apply clampLane_inRange, Hmax.
  - destruct (handleTouchEnd st dx dy p s) as [p' s'] eqn:E. simpl.
    apply clampLane_inRange, Hmax.
Qed.

Lemma lanesAlong_inRange st is_ : forall p s,
  (0 <= maxLaneOf (laneCount st))%Z ->
  laneInRange (laneCount st) p ->
  Forall (fun l => (- maxLaneOf (laneCount st) <= l <= maxLaneOf (laneCount st))%Z)
         (lanesAlong st is_ p s).
Proof.
  induction is_ as [|i rest IH]; intros p s Hmax Hp; simpl.
  - constructor.
  - pose proof (handleInput_inRange st i p s Hmax Hp) as Hi.
    destruct (handleInput st i p s) as [p' s']. simpl in Hi.
    constructor; [exact Hi | apply IH; assumption].
Qed.

(** C9.  With five lanes, starting from lane 0, the lane after every input
    of every finite sequence of key and touch inputs (among them every
    sequence of move-left and move-right intents) lies in [-2, 2], whatever
    the game status and the rest of the store. *)
Theorem lane_stays_within_two (st : Store) (is_ : list Input)
        (attached : bool) (s : Sim) :
  laneCount st = 5%Z ->
  Forall (fun l => (-2 <= l <= 2)%Z)
         (lanesAlong st is_ (initial attached) s)
  /\ (-2 <= lane (fst (handleInputs st is_ (initial attached) s)) <= 2)%Z.
Proof.
  intro H5.
  assert (Hmax : maxLaneOf (laneCount st) = 2%Z) by (rewrite H5; reflexivity).
  assert (H0 : laneInRange (laneCount st) (initial attached)).
  { unfold laneInRange. rewrite Hmax. destruct attached; simpl; lia. }
  split.
  - pose proof (lanesAlong_inRange st is_ (initial attached) s) as H.
    rewrite Hmax in H. apply H; [lia | exact H0].
  - revert H0. generalize (initial attached) as p. revert s.
    induction is_ as [|i rest IH]; intros s p Hp; simpl.
    + unfold laneInRange in Hp. rewrite Hmax in Hp. exact Hp.
    + unfold bind.
      pose proof (handleInput_inRange st i p s) as Hi.
      destruct (handleInput st i p s) as [p' s']. simpl in Hi.
      apply IH, Hi; [rewrite Hmax; lia | exact Hp].
Qed.

End PlayerLane.

(** ** Reasoning about the log *)

Lemma emits_ret {A} P (a : A) : emits P (ret a).
Proof. intro s. exists []. simpl. rewrite app_nil_r. auto. Qed.

Lemma emits_bind {A B} P (m : M A) (k : A -> M B) :
  emits P m -> (forall a, emits P (k a)) -> emits P (bind m k).
Proof.
  intros Hm Hk s. unfold bind.
  destruct (Hm s) as [l1 [E1 F1]].
  destruct (m s) as [a s1]. simpl in E1.
  destruct (Hk a s1) as [l2 [E2 F2]].
  exists (l1 ++ l2). split.
  - rewrite E2, E1, app_assoc. reflexivity.
  - apply Forall_app. auto.
Qed.

Lemma emits_emit (P : Effect -> Prop) e : P e -> emits P (emit e).
Proof. intros H s. exists [e]. simpl. auto. Qed.

Lemma emits_random P : emits P Math_random.
Proof. intro s. exists []. simpl. rewrite app_nil_r. auto. Qed.

Lemma emits_uuid P : emits P uuidv4.
Proof. intro s. exists []. simpl. rewrite app_nil_r. auto. Qed.

Lemma emits_when P b m : emits P m -> emits P (when b m).
Proof. intro H. destruct b; simpl; [exact H | apply emits_ret]. Qed.

Lemma emits_checkHit (P : Effect -> Prop) st now :
  P (Audio playDamage) -> P TakeDamage -> emits P (Player.checkHit st now).
Proof.
  intros H1 H2 s. unfold Player.checkHit.
  destruct (isInvincible s || isImmortalityActive st).
  - exists []. simpl. rewrite app_nil_r. auto.
  - exists [Audio playDamage; TakeDamage]. simpl. auto.
Qed.


Lemma silent_log {A} (m : M A) s : silent m -> log (snd (m s)) = log s.
Proof.
  intro H. destruct (H s) as [l [E F]].
  destruct l as [|e l].
  - rewrite app_nil_r in E. exact E.
  - inversion F; contradiction.
Qed.

Lemma count_app kind l1 l2 : count kind (l1 ++ l2) = (count kind l1 + count kind l2)%nat.
Proof. unfold count. rewrite filter_app, length_app. reflexivity. Qed.

(** Breaks a goal [emits P m] down along the structure of [m]. *)
Ltac emits_auto :=
  repeat first
    [ apply emits_ret
    | apply emits_random
    | apply emits_uuid
    | apply emits_emit; solve [simpl; auto; congruence]
    | apply emits_checkHit; solve [simpl; auto; congruence]
    | apply emits_when
    | apply emits_bind; [|intros ?]
    | match goal with
      | |- emits _ (match ?x with _ => _ end) => destruct x
      end ].

Section LevelManagerFacts.
Import LevelManager.
Context {T : Types}.

Lemma getRandomLane_silent n : silent (getRandomLane n).
Proof. unfold silent, getRandomLane. emits_auto. Qed.

(** The spawning code calls nothing and dispatches nothing. *)
Lemma spawnPolicy_silent st d n kept : silent (spawnPolicy st d n kept).
Proof.
  pose proof getRandomLane_silent as HL. unfold silent in *.
  unfold spawnPolicy.
  repeat first
    [ apply HL
    | progress emits_auto ].
Qed.









(** *** One iteration of the loop *)

Lemma moveAmount_not_missile sd dist obj :
  isType obj MISSILE = false -> moveAmount sd dist obj = dist.
Proof. unfold moveAmount. intros ->. reflexivity. Qed.

(** The collision tests only ever clear [active]. *)
Lemma collide_moved st now pp prevZ obj s :
  let o := fst (fst (fst (collide st now pp prevZ obj s))) in
  o = obj \/ o = setActive obj false.
Proof.
  unfold collide.
  repeat match goal with
         | |- context [if ?b then _ else _] => destruct b
         end;
    try (left; reflexivity); right;
    unfold bind;
    repeat match goal with
           | |- context [let (_, _) := ?m in _] => destruct m
           end; reflexivity.
Qed.

(** What the alien rule does to an alien that is due to fire. *)
Lemma alienShoot_fires obj s :
  type obj = ALIEN -> active obj = true -> fired obj = false ->
  -(90) < vz (position obj) ->
  alienShoot obj s
  = ((setHasFired obj true,
      Some (mkObject (uuidIx s) MISSILE
              (mkVec3 (vx (position obj)) 1.0 (vz (position obj) + 2))
              true (Some "#ffffff"%string) None None None None)),
     mkSim (random s) (randomIx s) (S (uuidIx s)) (isInvincible s)
           (lastDamageTime s) (log s)).
Proof.
  intros Ht Ha Hf Hz. unfold alienShoot, isType.
  rewrite Ht, Ha, Hf. simpl.
  apply Qgtb_gt in Hz. rewrite Hz. reflexivity.
Qed.

(** An object that has fired is left alone by the alien rule. *)
Lemma alienShoot_fired obj s :
  fired obj = true -> alienShoot obj s = ((obj, None), s).
Proof.
  intro Hf. unfold alienShoot. rewrite Hf.
  rewrite andb_false_r. reflexivity.
Qed.

Lemma fired_setActive obj b : fired (setActive obj b) = fired obj.
Proof. reflexivity. Qed.

Lemma fired_advance sd dist obj : fired (advance sd dist obj) = fired obj.
Proof. reflexivity. Qed.

Lemma stepObject_fires st now sd dist pp obj s :
  type obj = ALIEN -> active obj = true -> fired obj = false ->
  -(90) < vz (position obj) + dist ->
  let r := fst (stepObject st now sd dist pp obj s) in
  spawned r
  = Some (mkObject (uuidIx s) MISSILE
            (mkVec3 (vx (position obj)) 1.0 (vz (position obj) + dist + 2))
            true (Some "#ffffff"%string) None None None None)
  /\ hasFired (moved r) = Some true
  /\ changed r = true.
Proof.
  intros Ht Ha Hf Hz.
  assert (Hm : moveAmount sd dist obj = dist).
  { apply moveAmount_not_missile. unfold isType. rewrite Ht. reflexivity. }
  unfold stepObject, bind.
  rewrite alienShoot_fires; unfold advance; simpl; rewrite ?Hm; auto.
  match goal with
  | |- context [collide ?a ?b ?c ?d ?e ?f] =>
      pose proof (collide_moved a b c d e f) as Hc;
      destruct (collide a b c d e f) as [[[o2 k] ch] s2]
  end.
  simpl in *. repeat split.
  destruct Hc as [-> | ->]; reflexivity.
Qed.

Lemma stepObject_fired st now sd dist pp obj s :
  fired obj = true ->
  let r := fst (stepObject st now sd dist pp obj s) in
  spawned r = None /\ fired (moved r) = true.
Proof.
  intro Hf. unfold stepObject, bind.
  rewrite alienShoot_fired by (rewrite fired_advance; exact Hf).
  match goal with
  | |- context [collide ?a ?b ?c ?d ?e ?f] =>
      pose proof (collide_moved a b c d e f) as Hc;
      destruct (collide a b c d e f) as [[[o2 k] ch] s2]
  end.
  simpl in *. split; [reflexivity|].
  destruct Hc as [-> | ->]; rewrite ?fired_setActive, fired_advance; exact Hf.
Qed.

Lemma afterFrames_fired later : forall obj,
  fired obj = true ->
  Forall (fun r => spawned r = None) (afterFrames later obj).
Proof.
  induction later as [|[[[[[st now] sd] dist] pp] s] rest IH]; intros obj Hf; simpl.
  - constructor.
  - destruct (stepObject_fired st now sd dist pp obj s Hf) as [Hs Hf'].
    constructor; [exact Hs | apply IH, Hf'].
Qed.

(** C4 (as amended).  When an active alien that has not fired is carried
    past the fire threshold ([z > -90] after this frame's move), the
    iteration pushes one active missile whose [x] is the alien's [x], whose
    [z] is the alien's new [z] plus 2 and whose height is the constant 1.0,
    whatever the alien's own height; the alien's [hasFired] becomes true,
    and in no later frame does that alien push another missile. *)
Theorem alien_fires_once_at_height_one
        (st : Store) (now : Z) (safeDelta dist : Q) (playerPos : Vec3)
        (obj : GameObject) (s : Sim)
        (later : list (Store * Z * Q * Q * Vec3 * Sim)) :
  type obj = ALIEN -> active obj = true -> fired obj = false ->
  -(90) < vz (position obj) + dist ->
  let r := fst (stepObject st now safeDelta dist playerPos obj s) in
  (exists m, spawned r = Some m
             /\ type m = MISSILE /\ active m = true
             /\ vx (position m) = vx (position obj)
             /\ vy (position m) == 1
             /\ vz (position m) = vz (position obj) + dist + 2)
  /\ hasFired (moved r) = Some true
  /\ Forall (fun r' => spawned r' = None) (afterFrames later (moved r)).
Proof.
  intros Ht Ha Hf Hz r.
  destruct (stepObject_fires st now safeDelta dist playerPos obj s Ht Ha Hf Hz)
    as [Hs [Hh _]].
  fold r in Hs, Hh. split; [|split].
  - eexists. split; [exact Hs|]. simpl. repeat split; reflexivity.
  - exact Hh.
  - apply afterFrames_fired. unfold fired. rewrite Hh. reflexivity.
Qed.

(** *** The whole loop *)

Lemma stepObjects_cons st now sd dist pp obj rest s :
  stepObjects st now sd dist pp (obj :: rest) s
  = let (r, s1) := stepObject st now sd dist pp obj s in
    let (p, s2) := stepObjects st now sd dist pp rest s1 in
    (mkPass (if keep r then moved r :: keptObjects p else keptObjects p)
            (match spawned r with
             | Some m => m :: newSpawns p
             | None => newSpawns p
             end)
            (moved r :: mutated p)
            (changed r || hasChanges p), s2).
Proof.
  simpl. unfold bind.
  destruct (stepObject _ _ _ _ _ _ _) as [r s1].
  destruct (stepObjects _ _ _ _ _ _ _) as [p s2]. reflexivity.
Qed.

(** A missile pushed by an iteration is among the loop's [newSpawns], and
    the loop has set [hasChanges]. *)
Lemma stepObjects_fires st now sd dist pp alien objs : forall s,
  In alien objs ->
  type alien = ALIEN -> active alien = true -> fired alien = false ->
  -(90) < vz (position alien) + dist ->
  let p := fst (stepObjects st now sd dist pp objs s) in
  hasChanges p = true
  /\ exists i, In (mkObject i MISSILE
                     (mkVec3 (vx (position alien)) 1.0
                             (vz (position alien) + dist + 2))
                     true (Some "#ffffff"%string) None None None None)
                  (newSpawns p).
Proof.
  induction objs as [|obj rest IH]; intros s Hin Ht Ha Hf Hz; [contradiction|].
  rewrite stepObjects_cons.
  destruct Hin as [-> | Hin].
  - destruct (stepObject_fires st now sd dist pp alien s Ht Ha Hf Hz)
      as [Hs [_ Hc]].
    destruct (stepObject _ _ _ _ _ _ _) as [r s1].
    destruct (stepObjects _ _ _ _ _ _ _) as [p s2].
    simpl in *. rewrite Hs, Hc. split; [reflexivity|].
    exists (uuidIx s). left. reflexivity.
  - destruct (stepObject _ _ _ _ _ _ _) as [r s1].
    specialize (IH s1 Hin Ht Ha Hf Hz).
    destruct (stepObjects _ _ _ _ _ _ _) as [p s2].
    simpl in *. destruct IH as [Hc [i Hi]]. split.
    + rewrite Hc. apply orb_true_r.
    + exists i. destruct (spawned r); [right|]; exact Hi.
Qed.

(** C2 (as amended).  In a Playing frame, the missile of an active alien
    that is carried past the fire threshold is part of the entity set the
    frame commits, as spawned: active, at the alien's [x], at height 1.0
    and 2 behind the alien's new [z].  The frame's callbacks and events are
    exactly those of the loop over the entities that were in the store when
    the frame began, so the missile is not collision-tested in the frame
    that creates it. *)
Theorem missile_committed_but_untested
        (st : Store) (delta : Q) (now : Z) (playerObj : option Vec3)
        (lm : State) (s : Sim) (alien : GameObject) :
  status st = PLAYING ->
  In alien (objectsRef lm) ->
  type alien = ALIEN -> active alien = true -> fired alien = false ->
  -(90) < vz (position alien) + speed st * Qmin delta 0.05 ->
  let r := frame st delta now playerObj lm s in
  (exists i, In (mkObject i MISSILE
                   (mkVec3 (vx (position alien)) 1.0
                           (vz (position alien) + speed st * Qmin delta 0.05 + 2))
                   true (Some "#ffffff"%string) None None None None)
                (objectsRef (fst r)))
  /\ log (snd r)
     = log (snd (stepObjects st now (Qmin delta 0.05) (speed st * Qmin delta 0.05)
                             (playerPosOf playerObj) (objectsRef lm) s)).
Proof.
  intros Hst Hin Ht Ha Hf Hz. unfold frame. rewrite Hst. simpl. unfold bind.
  pose proof (stepObjects_fires st now (Qmin delta 0.05) _ (playerPosOf playerObj)
                alien (objectsRef lm) s Hin Ht Ha Hf Hz) as [Hc [i Hi]].
  destruct (stepObjects _ _ _ _ _ _ _) as [p s1]. simpl in Hc, Hi.
  match goal with
  | |- context [spawnPolicy ?a ?b ?c ?d ?e] =>
      pose proof (silent_log (spawnPolicy a b c d) e (spawnPolicy_silent a b c d)) as Hl;
      destruct (spawnPolicy a b c d e) as [[[fresh nl] ch] s2]
  end.
  rewrite Hc. simpl in *. split; [|exact Hl].
  exists i. apply in_or_app. left. apply in_or_app. right. exact Hi.
Qed.

(** *** Damage *)

Lemma damageSource_not_portal obj :
  isDamageSource obj = true -> isType obj SHOP_PORTAL = false.
Proof. unfold isDamageSource, isType. destruct (type obj); simpl; congruence. Qed.

(** The collision tests of a damage source that overlaps the player. *)
Lemma collide_damage st now pp prevZ obj s :
  active obj = true -> isDamageSource obj = true ->
  inZZone pp prevZ obj = true ->
  (Qabs (vx (position obj) - vx pp) <? 0.8) = true ->
  isHit pp obj = true ->
  collide st now pp prevZ obj s
  = ((setActive obj false, true, true),
     if protected st s
     then mkSim (random s) (randomIx s) (uuidIx s) (isInvincible s)
                (lastDamageTime s)
                ((log s ++ [PlayerHit]) ++ [ParticleBurst (position obj) "#ff9999"])
     else mkSim (random s) (randomIx s) (uuidIx s) true now
                (((log s ++ [PlayerHit]) ++ [Audio playDamage; TakeDamage])
                   ++ [ParticleBurst (position obj) "#ff9999"])).
Proof.
  intros Ha Hd Hz Hx Hh. unfold collide.
  rewrite Ha, (damageSource_not_portal obj Hd), Hz, Hx, Hd, Hh.
  unfold dispatchPlayerHit, Player.checkHit, protected, bind, emit, ret. simpl.
  destruct (isInvincible s || isImmortalityActive st); reflexivity.
Qed.

(** The entity an iteration leaves behind does not depend on the player's
    protection, on the clock or on the log: only on the identifier that
    [uuidv4] hands out next. *)
Lemma collide_result_indep st now st2 now2 pp prevZ obj s s2 :
  fst (collide st now pp prevZ obj s) = fst (collide st2 now2 pp prevZ obj s2).
Proof.
  unfold collide, dispatchPlayerHit, collectItem, Player.checkHit, when, bind, emit, ret.
  repeat match goal with
         | |- context [if ?b then _ else _] => destruct b
         | |- context [match ?x with Some _ => _ | None => _ end] => destruct x
         end; reflexivity.
Qed.

Lemma stepObject_result_indep st now st2 now2 sd dist pp obj s s2 :
  uuidIx s2 = uuidIx s ->
  fst (stepObject st2 now2 sd dist pp obj s2)
  = fst (stepObject st now sd dist pp obj s).
Proof.
  intro Hu. unfold stepObject, bind.
  assert (Ha : fst (alienShoot (advance sd dist obj) s2)
               = fst (alienShoot (advance sd dist obj) s)).
  { unfold alienShoot, bind, uuidv4, ret.
    destruct (_ && _); [|reflexivity].
    destruct (_ >? _); [|reflexivity]. simpl. rewrite Hu. reflexivity. }
  destruct (alienShoot (advance sd dist obj) s2) as [[o1 sp] s1'].
  destruct (alienShoot (advance sd dist obj) s) as [[o1' sp'] s1].
  simpl in Ha. inversion Ha; subst o1' sp'.
  pose proof (collide_result_indep st2 now2 st now pp (vz (position obj)) o1 s1' s1) as Hc.
  destruct (collide st2 now2 pp _ o1 s1') as [[[o2 k] ch] s2'].
  destruct (collide st now pp _ o1 s1) as [[[o2' k'] ch'] s2''].
  simpl in Hc. inversion Hc; subst. reflexivity.
Qed.

(** The alien rule leaves the log and the player's protection alone, and
    changes nothing of the object but [hasFired]. *)
Lemma alienShoot_frame obj s :
  let r := alienShoot obj s in
  (fst (fst r) = obj \/ fst (fst r) = setHasFired obj true)
  /\ log (snd r) = log s
  /\ isInvincible (snd r) = isInvincible s.
Proof.
  unfold alienShoot, bind, uuidv4, ret.
  destruct (_ && _); [|simpl; auto].
  destruct (_ >? _); simpl; auto.
Qed.

(** C6.  Take an active damage source (obstacle, alien or missile) that
    this frame's move brings into overlap with the player: inside the
    z-zone, within the lane tolerance and vertically overlapping.  The
    iteration deactivates it.  If the player is invincible or immortal no
    [takeDamage] call is made, otherwise exactly one is.  The entity left
    behind is the same in both cases: its deactivation does not depend on
    the player's protection. *)
Theorem damage_suppressed_but_entity_consumed
        (st : Store) (now : Z) (safeDelta dist : Q) (playerPos : Vec3)
        (obj : GameObject) (s : Sim) :
  active obj = true -> isDamageSource obj = true ->
  inZZone playerPos (vz (position obj)) (advance safeDelta dist obj) = true ->
  Qabs (vx (position obj) - vx playerPos) < 0.8 ->
  isHit playerPos (advance safeDelta dist obj) = true ->
  let r := stepObject st now safeDelta dist playerPos obj s in
  active (moved (fst r)) = false
  /\ count isTakeDamage (log (snd r))
     = (count isTakeDamage (log s) + if protected st s then 0 else 1)%nat
  /\ (forall st2 now2 s2,
         uuidIx s2 = uuidIx s ->
         fst (stepObject st2 now2 safeDelta dist playerPos obj s2) = fst r).
Proof.
  intros Ha Hd Hz Hx Hh r.
  apply Qltb_lt in Hx.
  assert (Hr : active (moved (fst r)) = false
               /\ log (snd r)
                  = (if protected st s
                     then (log s ++ [PlayerHit])
                            ++ [ParticleBurst (position (advance safeDelta dist obj))
                                              "#ff9999"]
                     else ((log s ++ [PlayerHit]) ++ [Audio playDamage; TakeDamage])
                            ++ [ParticleBurst (position (advance safeDelta dist obj))
                                              "#ff9999"])).
  { unfold r, stepObject, bind.
    pose proof (alienShoot_frame (advance safeDelta dist obj) s) as [Ho [Hl Hi]].
    destruct (alienShoot (advance safeDelta dist obj) s) as [[o1 sp] s1].
    simpl in Ho, Hl, Hi.
    assert (Hp : protected st s1 = protected st s)
      by (unfold protected; rewrite Hi; reflexivity).
    destruct Ho as [-> | ->];
      (rewrite collide_damage; [| exact Ha | exact Hd | exact Hz | exact Hx | exact Hh]);
      rewrite Hp; destruct (protected st s); simpl; rewrite Hl; auto. }
  destruct Hr as [Hact Hlog]. split; [exact Hact | split].
  - rewrite Hlog. destruct (protected st s); rewrite !count_app; unfold count; simpl; lia.
  - intros. apply stepObject_result_indep. assumption.
Qed.

(** *** Spawning *)





Lemma getRandomLane_run n s :
  getRandomLane n s
  = ((Qfloor (random s (randomIx s) * inject_Z (n / 2 * 2 + 1)) - n / 2)%Z,
     mkSim (random s) (S (randomIx s)) (uuidIx s) (isInvincible s)
           (lastDamageTime s) (log s)).
Proof. reflexivity. Qed.

(** With the gate open, the spawning code creates something exactly when a
    letter is due or the first draw exceeds 0.1. *)
Lemma spawnPolicy_open_gate st distance nextLetter kept s :
  - SPAWN_DISTANCE < furthestZ kept ->
  (fst (fst (fst (spawnPolicy st distance nextLetter kept s))) <> []
   <-> ((distance >=? nextLetter) = true \/ 0.1 < random s (randomIx s))).
Proof.
  intro Hgate. apply Qgtb_gt in Hgate.
  unfold spawnPolicy. rewrite Hgate.
  destruct (distance >=? nextLetter) eqn:Hdue.
  - split; [auto|]. intros _. unfold bind. rewrite getRandomLane_run.
    destruct (0 <? _)%nat; simpl; discriminate.
  - unfold bind at 1. unfold Math_random at 1.
    destruct (random s (randomIx s) >? 0.1) eqn:Hr.
    + split; [intros _; right; apply Qgtb_gt; exact Hr|]. intros _.
      unfold getRandomLane, bind, Math_random, uuidv4, ret. simpl.
      repeat match goal with
             | |- context [if ?b then _ else _] => destruct b; simpl
             end; discriminate.
    + split; [simpl; congruence|].
      intros [H | H]; [discriminate|].
      apply Qgtb_gt in H. congruence.
Qed.

(** C5 (as amended).  With [furthestZ = -40] and [SPAWN_DISTANCE = 60] the
    spawn gate is open, and the spawning code creates at least one entity
    exactly when a letter is due or the first random draw exceeds 0.1; on
    a draw of at most 0.1 with no letter due it creates nothing. *)
Theorem open_road_spawns_unless_gap_drawn
        (st : Store) (distance nextLetter : Q) (kept : list GameObject) (s : Sim) :
  furthestZ kept == -(40) -> SPAWN_DISTANCE == 60 ->
  (fst (fst (fst (spawnPolicy st distance nextLetter kept s))) <> []
   <-> ((distance >=? nextLetter) = true \/ 0.1 < random s (randomIx s))).
Proof.
  intros Hf Hs. apply spawnPolicy_open_gate.
  rewrite Hf, Hs. reflexivity.
Qed.

(** *** Portals *)


Lemma filter_length_le {A} (f : A -> bool) (l : list A) :
  (List.length (filter f l) <= List.length l)%nat.
Proof.
  induction l as [|a l IH]; simpl; [lia|]. destruct (f a); simpl; lia.
Qed.

Lemma ofType_app t l1 l2 : ofType t (l1 ++ l2) = ofType t l1 ++ ofType t l2.
Proof. apply filter_app. Qed.

(** The collision tests call [openShop] once for an active portal within
    the tolerance, and drop it; they call it for nothing else. *)
Lemma collide_shop st now pp prevZ obj s :
  let r := collide st now pp prevZ obj s in
  let enters := isType obj SHOP_PORTAL && active obj
                && (Qabs (vz (position obj) - vz pp) <? 2) in
  count isOpenShop (log (snd r))
  = (count isOpenShop (log s) + if enters then 1 else 0)%nat
  /\ (enters = true -> snd (fst r) = true /\ snd (fst (fst r)) = false).
Proof.
  unfold collide, dispatchPlayerHit, collectItem, Player.checkHit, when, bind, emit, ret.
  destruct (active obj); [|rewrite andb_false_r; simpl; split; [lia | discriminate]].
  destruct (isType obj SHOP_PORTAL) eqn:Et; simpl.
  - destruct (_ <? 2); simpl.
    + rewrite count_app. unfold count. simpl. split; [lia | auto].
    + split; [lia | discriminate].
  - split; [|discriminate].
    assert (Hg : isType obj GEM = true -> isType obj LETTER = false)
      by (unfold isType; destruct (type obj); simpl; congruence).
    repeat match goal with
           | |- context [if ?b then _ else _] => destruct b; simpl
           | |- context [match ?x with Some _ => _ | None => _ end] =>
               destruct x; simpl
           end;
      rewrite ?count_app; unfold count; simpl; lia.
Qed.

Lemma collide_type st now pp prevZ obj s :
  type (fst (fst (fst (collide st now pp prevZ obj s)))) = type obj.
Proof. destruct (collide_moved st now pp prevZ obj s) as [-> | ->]; reflexivity. Qed.

Lemma stepObject_shop st now sd dist pp obj s :
  let r := stepObject st now sd dist pp obj s in
  count isOpenShop (log (snd r))
  = (count isOpenShop (log s) + if entersShop pp dist obj then 1 else 0)%nat
  /\ (entersShop pp dist obj = true -> keep (fst r) = false /\ changed (fst r) = true)
  /\ type (moved (fst r)) = type obj
  /\ match spawned (fst r) with Some m => type m = MISSILE | None => True end.
Proof.
  unfold stepObject, bind.
  pose proof (alienShoot_frame (advance sd dist obj) s) as [Ho [Hl _]].
  assert (Hsp : match snd (fst (alienShoot (advance sd dist obj) s)) with
                | Some m => type m = MISSILE
                | None => True
                end).
  { unfold alienShoot, bind, uuidv4, ret.
    destruct (_ && _); [|exact I]. destruct (_ >? _); simpl; auto. }
  destruct (alienShoot (advance sd dist obj) s) as [[o1 sp] s1].
  simpl in Ho, Hl, Hsp.
  pose proof (collide_shop st now pp (vz (position obj)) o1 s1) as Hcs.
  cbv zeta in Hcs. destruct Hcs as [Hc Hk].
  pose proof (collide_type st now pp (vz (position obj)) o1 s1) as Ht.
  destruct (collide st now pp (vz (position obj)) o1 s1) as [[[o2 k] ch] s2].
  unfold ret. cbn [fst snd moved keep changed spawned] in *.
  assert (He : isType o1 SHOP_PORTAL && active o1
               && (Qabs (vz (position o1) - vz pp) <? 2)
               = entersShop pp dist obj).
  { unfold entersShop.
    destruct (isType obj SHOP_PORTAL) eqn:Ep.
    - assert (Hm : moveAmount sd dist obj = dist).
      { apply moveAmount_not_missile. unfold isType in *.
        destruct (type obj); simpl in *; congruence. }
      destruct Ho as [-> | ->]; unfold isType, advance; simpl;
        unfold isType in Ep; rewrite Ep, Hm; reflexivity.
    - destruct Ho as [-> | ->]; unfold isType, advance; simpl;
        unfold isType in Ep; rewrite Ep; reflexivity. }
  rewrite He in Hc, Hk. rewrite Hl in Hc.
  split; [exact Hc|]. split; [|split].
  - intro E. destruct (Hk E) as [-> ->]. simpl.
    rewrite orb_true_r. auto.
  - rewrite Ht. destruct Ho as [-> | ->]; reflexivity.
  - exact Hsp.
Qed.

(** The portals of the loop's four results. *)
Lemma stepObjects_shop st now sd dist pp objs : forall s,
  let r := stepObjects st now sd dist pp objs s in
  count isOpenShop (log (snd r))
  = (count isOpenShop (log s) + List.length (filter (entersShop pp dist) objs))%nat
  /\ (List.length (ofType SHOP_PORTAL (keptObjects (fst r)))
      <= List.length
           (filter (fun o => negb (entersShop pp dist o)) (ofType SHOP_PORTAL objs)))%nat
  /\ ofType SHOP_PORTAL (newSpawns (fst r)) = []
  /\ List.length (ofType SHOP_PORTAL (mutated (fst r)))
     = List.length (ofType SHOP_PORTAL objs)
  /\ (filter (entersShop pp dist) objs <> [] -> hasChanges (fst r) = true).
Proof.
  induction objs as [|obj rest IH]; intro s.
  - simpl. repeat split; auto; try lia.
  - rewrite stepObjects_cons.
    pose proof (stepObject_shop st now sd dist pp obj s) as [Hc [Hk [Ht Hsp]]].
    destruct (stepObject st now sd dist pp obj s) as [r s1].
    specialize (IH s1). destruct IH as [IHc [IHk [IHn [IHm IHh]]]].
    destruct (stepObjects st now sd dist pp rest s1) as [p s2].
    simpl in *.
    assert (Hty : isType (moved r) SHOP_PORTAL = isType obj SHOP_PORTAL)
      by (unfold isType; rewrite Ht; reflexivity).
    split; [|split; [|split; [|split]]].
    + rewrite IHc, Hc. destruct (entersShop pp dist obj); simpl; lia.
    + unfold ofType in *. simpl.
      destruct (isType obj SHOP_PORTAL) eqn:Ep; simpl.
      * destruct (entersShop pp dist obj) eqn:Ee; simpl.
        -- destruct (Hk eq_refl) as [-> _]. exact IHk.
        -- destruct (keep r); simpl; rewrite ?Hty, ?Ep; simpl; lia.
      * destruct (keep r); simpl; rewrite ?Hty, ?Ep; exact IHk.
    + destruct (spawned r) as [m|]; [|exact IHn].
      unfold ofType, isType in *. simpl. rewrite Hsp. simpl. exact IHn.
    + unfold ofType in *. simpl. rewrite Hty.
      destruct (isType obj SHOP_PORTAL); simpl; lia.
    + destruct (entersShop pp dist obj) eqn:Ee.
      * intros _. destruct (Hk eq_refl) as [_ ->]. reflexivity.
      * intro Hne. rewrite (IHh Hne). apply orb_true_r.
Qed.

(** The spawning code never creates a portal. *)
Lemma spawnPolicy_no_portal st distance nextLetter kept s :
  ofType SHOP_PORTAL (fst (fst (fst (spawnPolicy st distance nextLetter kept s)))) = [].
Proof.
  unfold spawnPolicy, getRandomLane, bind, Math_random, uuidv4, ret.
  repeat match goal with
         | |- context [if ?b then _ else _] => destruct b; simpl
         end; reflexivity.
Qed.



(** A Playing frame never adds a portal to the store, and calls [openShop]
    once for each portal that enters the tolerance. *)
Lemma frame_portals st delta now playerObj lm s :
  status st = PLAYING ->
  let dist := speed st * Qmin delta 0.05 in
  let pp := playerPosOf playerObj in
  let r := frame st delta now playerObj lm s in
  count isOpenShop (log (snd r))
  = (count isOpenShop (log s)
     + List.length (filter (entersShop pp dist) (objectsRef lm)))%nat
  /\ (List.length (ofType SHOP_PORTAL (objectsRef (fst r)))
      <= List.length (ofType SHOP_PORTAL (objectsRef lm)))%nat
  /\ (filter (entersShop pp dist) (objectsRef lm) <> [] ->
      List.length (ofType SHOP_PORTAL (objectsRef (fst r)))
      <= List.length (filter (fun o => negb (entersShop pp dist o))
                             (ofType SHOP_PORTAL (objectsRef lm))))%nat.
Proof.
  intros Hst dist pp. unfold frame. rewrite Hst. simpl. unfold bind.
  fold dist. fold pp.
  pose proof (stepObjects_shop st now (Qmin delta 0.05) dist pp (objectsRef lm) s)
    as [Hc [Hk [Hn [Hm Hh]]]].
  destruct (stepObjects _ _ _ _ _ _ _) as [p s1]. simpl in Hc, Hk, Hn, Hm, Hh.
  match goal with
  | |- context [spawnPolicy ?a ?b ?c ?d ?e] =>
      pose proof (silent_log (spawnPolicy a b c d) e (spawnPolicy_silent a b c d)) as Hl;
      pose proof (spawnPolicy_no_portal a b c d e) as Hf;
      destruct (spawnPolicy a b c d e) as [[[fresh nl] ch] s2]
  end.
  simpl in Hl, Hf.
  pose proof (filter_length_le (fun o => negb (entersShop pp dist o))
                (ofType SHOP_PORTAL (objectsRef lm))) as Hle.
  assert (Hcommit : (List.length (ofType SHOP_PORTAL ((keptObjects p ++ newSpawns p) ++ fresh))
                     <= List.length (filter (fun o => negb (entersShop pp dist o))
                                            (ofType SHOP_PORTAL (objectsRef lm))))%nat).
  { rewrite !ofType_app, Hn, Hf, !app_nil_r. exact Hk. }
  split; [|split].
  - destruct (_ || _); simpl; rewrite Hl; exact Hc.
  - destruct (_ || _); simpl; lia.
  - intro Hne. rewrite (Hh Hne). simpl. exact Hcommit.
Qed.

Lemma frame_not_playing st delta now playerObj lm s :
  status st <> PLAYING -> frame st delta now playerObj lm s = (lm, s).
Proof.
  intro H. unfold frame. destruct (status st); try congruence; reflexivity.
Qed.


(** Which branch the effect takes. *)
Lemma statusEffect_branches st lm s :
  (objectsRef (fst (statusEffect st lm s)) = [] /\ ~ levelUpTransition st lm)
  \/ (levelUpTransition st lm
      /\ objectsRef (fst (statusEffect st lm s))
         = filter (fun obj => vz (position obj) >? -(80)) (objectsRef lm)
           ++ [mkObject (uuidIx s) SHOP_PORTAL (mkVec3 0 0 (-(100))) true
                        None None None None None])
  \/ (objectsRef (fst (statusEffect st lm s)) = objectsRef lm /\ ~ levelUpTransition st lm).
Proof.
  unfold statusEffect, levelUpTransition.
  destruct (status st) eqn:Es; simpl;
    try (left; split; [reflexivity | intros [H _]; discriminate]);
    try (right; right; rewrite ?andb_false_r; simpl;
         split; [reflexivity | intros [H _]; discriminate]).
  destruct (prevStatus lm) eqn:Ep; simpl;
    try (left; split; [reflexivity | intros [_ [H1 [H2 _]]]; congruence]).
  all: destruct (level st =? prevLevel lm)%Z eqn:El; simpl;
    try (right; right; split;
         [reflexivity | intros [_ [_ [_ [H _]]]]; apply Z.eqb_eq in El; contradiction]).
  all: destruct (level st >? 1)%Z eqn:Eg; simpl;
    try (right; right; split;
         [reflexivity
         | intros [_ [_ [_ [_ H]]]]; rewrite Z.gtb_ltb in Eg; apply Z.ltb_ge in Eg; lia]).
  all: right; left; split; [|reflexivity].
  all: apply Z.eqb_neq in El; rewrite Z.gtb_ltb in Eg; apply Z.ltb_lt in Eg.
  all: repeat split; auto; discriminate.
Qed.




(** *** Resets *)

Lemma frames_not_playing st inputs : forall lm s,
  status st <> PLAYING -> frames st inputs lm s = (lm, s).
Proof.
  induction inputs as [|[[delta now] playerObj] rest IH]; intros lm s H; simpl.
  - reflexivity.
  - unfold bind. rewrite (frame_not_playing _ _ _ _ _ _ H). apply IH, H.
Qed.

(** C3 (as amended).  A restart after death or after victory empties the
    entity store, and so does entering the menu; a fresh run that leaves
    the menu at the menu's level, or at level 1, finds the store still
    empty, whatever frames were rendered in the menu.  Every change of the
    status to Playing puts the player back on the ground: not jumping, zero
    vertical velocity, zero jumps used and, once its group is mounted,
    height 0.  The lane is not reset: it stays what it was. *)
Theorem playing_transition_resets_store_and_jump_not_lane :
  (forall st lm s,
      status st = PLAYING ->
      prevStatus lm = GAME_OVER \/ prevStatus lm = VICTORY ->
      objectsRef (fst (statusEffect st lm s)) = [])
  /\ (forall menu st inputs lm s,
         status menu = MENU -> status st = PLAYING ->
         level st = level menu \/ (level st <= 1)%Z ->
         let (lm1, s1) := statusEffect menu lm s in
         let (lm2, s2) := frames menu inputs lm1 s1 in
         objectsRef lm1 = [] /\ objectsRef (fst (statusEffect st lm2 s2)) = [])
  /\ (forall p,
         let p' := Player.resetOnStatus PLAYING p in
         Player.isJumping p' = false
         /\ Player.velocityY p' = 0
         /\ Player.jumpsPerformed p' = 0%Z
         /\ (Player.groupY p <> None -> Player.groupY p' = Some 0)
         /\ Player.lane p' = Player.lane p).
Proof.
  split; [|split].
  - intros st lm s Hst Hprev. unfold statusEffect. rewrite Hst.
    destruct Hprev as [-> | ->]; reflexivity.
  - intros menu st inputs lm s Hm Hst Hlv.
    assert (E1 : statusEffect menu lm s
                 = (mkState [] (S (renderTrigger lm)) MENU (level menu) 0
                            (getLetterInterval 1), s)).
    { unfold statusEffect. rewrite Hm. reflexivity. }
    rewrite E1.
    rewrite frames_not_playing by (rewrite Hm; discriminate).
    split; [reflexivity|].
    unfold statusEffect. rewrite Hst. simpl.
    destruct Hlv as [-> | Hle].
    + rewrite Z.eqb_refl. reflexivity.
    + destruct (negb _); simpl; [|reflexivity].
      destruct (level st >? 1)%Z eqn:E; [|reflexivity].
      rewrite Z.gtb_ltb in E. apply Z.ltb_lt in E. lia.
  - intro p. simpl. repeat split.
    destruct (Player.groupY p); [reflexivity | congruence].
Qed.

(** C1 (as amended).  A frame in which the player reference is still null
    does not fault and does not skip the collision tests: it is the very
    frame that a player standing at the origin [(0, 0, 0)] gets, with the
    same entities, the same callbacks and the same events.  In particular
    such a Playing frame calls [openShop] once for every active portal that
    its move brings within 2 of [z = 0]. *)
Theorem missing_player_is_tested_at_origin
        (st : Store) (delta : Q) (now : Z) (lm : State) (s : Sim) :
  frame st delta now None lm s
  = frame st delta now (Some (mkVec3 0 0 0)) lm s
  /\ (status st = PLAYING ->
      count isOpenShop (log (snd (frame st delta now None lm s)))
      = (count isOpenShop (log s)
         + List.length (filter (entersShop (mkVec3 0 0 0) (speed st * Qmin delta 0.05))
                               (objectsRef lm)))%nat).
Proof.
  split; [reflexivity|]. intro Hst.
  apply (frame_portals st delta now None lm s Hst).
Qed.

End LevelManagerFacts.

(** * The properties on the scenarios *)

Section Scenarios.
Import LevelManager Scenario.

(** The null-reference frame over [crowded] calls [takeDamage],
    [collectGem] and [openShop]. *)
Lemma null_player_reference_still_collides :
  let l := log (snd (frame (T:=types120) (playing 1 []) 0.05 1000 None crowded
                           (world 0.05))) in
  In PlayerHit l /\ In TakeDamage l /\ In (CollectGem 50) l /\ In OpenShop l.
Proof. vm_compute. repeat split; auto 10. Qed.

Lemma missing_player_is_tested_at_origin_witness :
  count isOpenShop
        (log (snd (frame (T:=types120) (playing 1 []) 0.05 1000 None crowded
                         (world 0.05))))
  = (count isOpenShop (log (world 0.05))
     + List.length (filter (entersShop (mkVec3 0 0 0)
                                       (speed (playing 1 []) * Qmin 0.05 0.05))
                           (objectsRef crowded)))%nat.
Proof.
  apply (proj2 (missing_player_is_tested_at_origin (T:=types120)
                  (playing 1 []) 0.05 1000 crowded (world 0.05))).
  reflexivity.
Defined.

(** The missile fired by [lateAlien] lands on the player: it passes every
    test of the collision code, yet the frame that creates it logs
    nothing and leaves it active; the next frame hits the player. *)
Lemma fresh_missile_overlapping_player_is_not_hit :
  let r := frame (T:=types120) (playing 1 []) 0.05 1000 (Some origin) ambush
                 (world 0.05) in
  let r' := frame (T:=types120) (playing 1 []) 0.05 1050 (Some origin) (fst r)
                  (snd r) in
  existsb (fun m => isType m MISSILE && active m
                    && inZZone origin (vz (position m)) m
                    && (Qabs (vx (position m) - vx origin) <? 0.8)
                    && isHit origin m)
          (objectsRef (fst r)) = true
  /\ log (snd r) = []
  /\ In TakeDamage (log (snd r')).
Proof. vm_compute. repeat split; auto 10. Qed.

Lemma missile_committed_but_untested_witness :
  exists i, In (mkObject i MISSILE
                  (mkVec3 (vx (position lateAlien)) 1.0
                          (vz (position lateAlien)
                           + speed (playing 1 []) * Qmin 0.05 0.05 + 2))
                  true (Some "#ffffff"%string) None None None None)
               (objectsRef (fst (frame (T:=types120) (playing 1 []) 0.05 1000
                                       (Some origin) ambush (world 0.05)))).
Proof.
  apply (missile_committed_but_untested (T:=types120) (playing 1 []) 0.05 1000
           (Some origin) ambush (world 0.05) lateAlien).
  - reflexivity.
  - simpl. left. reflexivity.
  - reflexivity.
  - reflexivity.
  - reflexivity.
  - vm_compute. reflexivity.
Defined.

(** After a death in lane 2 the restart leaves the player in lane 2. *)
Lemma restart_keeps_lane :
  Player.lane diedInLaneTwo = 2%Z
  /\ Player.lane (Player.resetOnStatus PLAYING diedInLaneTwo) <> 0%Z.
Proof. vm_compute. split; [reflexivity | discriminate]. Qed.

Lemma playing_transition_resets_store_and_jump_not_lane_witness :
  objectsRef (fst (statusEffect (T:=types120) (playing 1 [])
                     (mkState [snowman; gem] 4 GAME_OVER 3 812 930) (world 0.5)))
  = []
  /\ (let (lm1, s1) := statusEffect (T:=types120)
                         (mkStore MENU 10 [] 3 1 false false) crowded (world 0.5) in
      let (lm2, s2) := frames (T:=types120) (mkStore MENU 10 [] 3 1 false false)
                              [(0.016, 1000%Z, None)] lm1 s1 in
      objectsRef lm1 = []
      /\ objectsRef (fst (statusEffect (T:=types120) (playing 1 []) lm2 s2)) = [])
  /\ Player.groupY (Player.resetOnStatus PLAYING
                      (Player.mkState 2 true 3 1 0 (Some 1.4))) = Some 0.
Proof.
  pose proof (playing_transition_resets_store_and_jump_not_lane (T:=types120))
    as [H1 [H2 H3]].
  split; [|split].
  - apply H1; [reflexivity | left; reflexivity].
  - apply (H2 (mkStore MENU 10 [] 3 1 false false) (playing 1 [])
              [(0.016, 1000%Z, None)] crowded (world 0.5)).
    + reflexivity.
    + reflexivity.
    + left. reflexivity.
  - apply H3. discriminate.
Defined.

(** The missile of [alien] flies at height 1.0, the alien at 1.5. *)
Lemma missile_height_differs_from_alien_height :
  match spawned (fst (stepObject (T:=types120) (playing 2 []) 1000 0.05 0.5 origin
                                 alien (world 0.5))) with
  | Some m => vx (position m) == vx (position alien)
              /\ ~ vy (position m) == vy (position alien)
  | None => False
  end.
Proof. vm_compute. split; [reflexivity | discriminate]. Qed.

Lemma alien_fires_once_at_height_one_witness :
  hasFired (moved (fst (stepObject (T:=types120) (playing 2 []) 1000 0.05 0.5 origin
                                   alien (world 0.5)))) = Some true.
Proof.
  apply (alien_fires_once_at_height_one (T:=types120) (playing 2 []) 1000 0.05 0.5
           origin alien (world 0.5) []).
  - reflexivity.
  - reflexivity.
  - reflexivity.
  - vm_compute. reflexivity.
Defined.

(** Open road ([furthestZ = -40], [SPAWN_DISTANCE = 60]), no letter due,
    and a draw of 0.05: nothing is spawned. *)
Lemma gap_draw_spawns_nothing_on_open_road :
  furthestZ [farSnowman] == -(40)
  /\ SPAWN_DISTANCE (Types:=types60) == 60
  /\ fst (fst (fst (spawnPolicy (T:=types60) (playing 1 []) 10 150 [farSnowman]
                                (world 0.05)))) = [].
Proof. vm_compute. repeat split; reflexivity. Qed.

Lemma open_road_spawns_unless_gap_drawn_witness :
  fst (fst (fst (spawnPolicy (T:=types60) (playing 1 []) 10 150 [farSnowman]
                             (world 0.5)))) <> [].
Proof.
  apply (open_road_spawns_unless_gap_drawn (T:=types60) (playing 1 []) 10 150
           [farSnowman] (world 0.5)).
  - vm_compute. reflexivity.
  - vm_compute. reflexivity.
  - right. vm_compute. reflexivity.
Defined.

(** An unprotected hit on [snowman] costs one [takeDamage]; under
    immortality it costs none; the snowman is deactivated both times. *)
Lemma damage_suppressed_but_entity_consumed_witness :
  (let r := stepObject (T:=types120) (playing 1 []) 1000 0.05 0.5 origin snowman
                       (world 0.5) in
   active (moved (fst r)) = false
   /\ count isTakeDamage (log (snd r)) = 1%nat)
  /\ (let r := stepObject (T:=types120) (mkStore PLAYING 10 [] 5 1 false true)
                          1000 0.05 0.5 origin snowman (world 0.5) in
      active (moved (fst r)) = false
      /\ count isTakeDamage (log (snd r)) = 0%nat).
Proof.
  split.
  - pose proof (damage_suppressed_but_entity_consumed (T:=types120) (playing 1 [])
                  1000 0.05 0.5 origin snowman (world 0.5)) as H.
    destruct H as [H1 [H2 _]].
    + reflexivity.
    + reflexivity.
    + vm_compute. reflexivity.
    + vm_compute. reflexivity.
    + vm_compute. reflexivity.
    + split; [exact H1 | exact H2].
  - pose proof (damage_suppressed_but_entity_consumed (T:=types120)
                  (mkStore PLAYING 10 [] 5 1 false true)
                  1000 0.05 0.5 origin snowman (world 0.5)) as H.
    destruct H as [H1 [H2 _]].
    + reflexivity.
    + reflexivity.
    + vm_compute. reflexivity.
    + vm_compute. reflexivity.
    + vm_compute. reflexivity.
    + split; [exact H1 | exact H2].
Defined.




Lemma lane_stays_within_two_witness :
  (-2 <= Player.lane
           (fst (Player.handleInputs (playing 1 [])
                   [Player.KeyDown "ArrowRight"; Player.KeyDown "ArrowRight";
                    Player.KeyDown "ArrowRight"; Player.TouchEnd 80 5;
                    Player.KeyDown "ArrowLeft"]
                   (Player.initial true) (world 0.5)))
   <= 2)%Z.
Proof.
  apply (lane_stays_within_two (playing 1 [])
           [Player.KeyDown "ArrowRight"; Player.KeyDown "ArrowRight";
            Player.KeyDown "ArrowRight"; Player.TouchEnd 80 5;
            Player.KeyDown "ArrowLeft"] true (world 0.5)).
  reflexivity.
Defined.


End Scenarios.


(** * Further properties of LevelManager.tsx *)

Section LetterInterval.
Import LevelManager.





Lemma Qfloor_in_range (r : Q) (n : Z) :
  0 <= r -> r < 1 -> (0 < n)%Z -> (0 <= Qfloor (r * inject_Z n) < n)%Z.
Proof.
  intros H0 H1 Hn.
  assert (Hq : 0 < inject_Z n)
    by (change 0 with (inject_Z 0); rewrite <- (Zlt_Qlt 0 n); exact Hn).
  split.
  - change 0%Z with (Qfloor 0). apply Qfloor_resp_le.
    apply Qmult_le_0_compat; [exact H0 | apply Qlt_le_weak, Hq].
  - rewrite Zlt_Qlt.
    eapply Qle_lt_trans; [apply Qfloor_le|].
    setoid_replace (inject_Z n) with (1 * inject_Z n) at 2 by ring.
    apply Qmult_lt_compat_r; assumption.
Qed.

(** X2.  With a draw in [0, 1) and a non-negative lane count,
    [getRandomLane] returns a lane of the road: between [-floor(laneCount/2)]
    and [floor(laneCount/2)]; it consumes exactly one draw and logs nothing. *)
Theorem random_lane_is_on_the_road (laneCount : Z) (s : Sim) :
  (0 <= laneCount)%Z ->
  0 <= random s (randomIx s) -> random s (randomIx s) < 1 ->
  let r := getRandomLane laneCount s in
  (- (laneCount / 2) <= fst r <= laneCount / 2)%Z
  /\ randomIx (snd r) = S (randomIx s)
  /\ log (snd r) = log s.
Proof.
  intros Hn H0 H1.
  unfold getRandomLane, bind, Math_random, ret. cbn [fst snd randomIx log].
  assert (Hm : (0 <= laneCount / 2)%Z) by (apply Z.div_pos; lia).
  assert (H : (0 <= Qfloor (random s (randomIx s) * inject_Z (laneCount / 2 * 2 + 1))
               < laneCount / 2 * 2 + 1)%Z)
    by (apply Qfloor_in_range; [exact H0 | exact H1 | lia]).
  repeat split; lia.
Qed.

End LetterInterval.

Section Stepping.
Import LevelManager.
Context {T : Types}.

(** What an iteration can do to the object itself. *)
Lemma stepObject_moved st now sd dist pp obj s :
  let m := moved (fst (stepObject st now sd dist pp obj s)) in
  id m = id obj /\ type m = type obj
  /\ position m = position (advance sd dist obj)
  /\ color m = color obj /\ points m = points obj
  /\ value m = value obj /\ targetIndex m = targetIndex obj
  /\ (active m = true -> active obj = true)
  /\ (fired obj = true -> fired m = true).
Proof.
  unfold stepObject, bind.
  pose proof (alienShoot_frame (advance sd dist obj) s) as [Ho _].
  destruct (alienShoot (advance sd dist obj) s) as [[o1 sp] s1]. simpl in Ho.
  pose proof (collide_moved st now pp (vz (position obj)) o1 s1) as Hc.
  destruct (collide st now pp (vz (position obj)) o1 s1) as [[[o2 k] ch] s2].
  unfold ret. cbn [fst snd moved] in *.
  destruct Hc as [-> | ->], Ho as [-> | ->]; simpl;
    repeat split; auto; try discriminate.
Qed.

Lemma Qmin_le_r (a b : Q) : Qmin a b <= b.
Proof. apply Q.le_min_r. Qed.

Lemma Qmin_nonneg (a b : Q) : 0 <= a -> 0 <= b -> 0 <= Qmin a b.
Proof. intros. apply Q.min_glb; assumption. Qed.

(** X3.  One iteration of a frame moves an entity along [z] only, and only
    forward: with a non-negative speed and frame time, [z] grows by
    [speed * min(delta, 0.05)], and by [25 * min(delta, 0.05)] more for a
    missile, so by at most [(speed + 25) * 0.05] however long the frame took;
    [id], kind, [x], [y] and the payload fields are left as they were. *)
Theorem entities_only_move_forward
        (st : Store) (now : Z) (delta : Q) (playerPos : Vec3)
        (obj : GameObject) (s : Sim) :
  0 <= speed st -> 0 <= delta ->
  let safeDelta := Qmin delta 0.05 in
  let m := moved (fst (stepObject st now safeDelta (speed st * safeDelta)
                                  playerPos obj s)) in
  id m = id obj /\ type m = type obj
  /\ vx (position m) = vx (position obj) /\ vy (position m) = vy (position obj)
  /\ points m = points obj /\ targetIndex m = targetIndex obj
  /\ vz (position m)
     = vz (position obj)
       + (if isType obj MISSILE
          then speed st * safeDelta + MISSILE_SPEED * safeDelta
          else speed st * safeDelta)
  /\ vz (position obj) <= vz (position m)
  /\ vz (position m) <= vz (position obj) + (speed st + 25) * 0.05.
Proof.
  intros Hs Hd safeDelta m.
  destruct (stepObject_moved st now safeDelta (speed st * safeDelta) playerPos obj s)
    as [Hid [Hty [Hpos [_ [Hpt [_ [Hti _]]]]]]].
  fold m in Hid, Hty, Hpos, Hpt, Hti.
  assert (H0 : 0 <= safeDelta) by (apply Qmin_nonneg; [exact Hd | discriminate]).
  assert (H1 : safeDelta <= 0.05) by apply Qmin_le_r.
  assert (Hm : 0 <= speed st * safeDelta) by (apply Qmult_le_0_compat; assumption).
  assert (Hm' : speed st * safeDelta <= speed st * 0.05).
  { rewrite !(Qmult_comm (speed st)). apply Qmult_le_compat_r; assumption. }
  rewrite Hpos. unfold advance, moveAmount, MISSILE_SPEED. simpl.
  repeat split; auto.
  - destruct (isType obj MISSILE); lra.
  - destruct (isType obj MISSILE); lra.
Qed.

(** X4.  A deactivated entity is inert: its iteration logs nothing, does not
    touch the player's invincibility, pushes no missile and leaves it
    inactive; it is dropped exactly when it has passed [REMOVE_DISTANCE].
    More generally no iteration ever reactivates an entity. *)
Theorem inactive_entity_is_inert
        (st : Store) (now : Z) (safeDelta dist : Q) (playerPos : Vec3)
        (obj : GameObject) (s : Sim) :
  let r := stepObject st now safeDelta dist playerPos obj s in
  (active (moved (fst r)) = true -> active obj = true)
  /\ (active obj = false ->
      log (snd r) = log s
      /\ isInvincible (snd r) = isInvincible s
      /\ spawned (fst r) = None
      /\ active (moved (fst r)) = false
      /\ keep (fst r)
         = negb (vz (position obj) + moveAmount safeDelta dist obj >? REMOVE_DISTANCE)).
Proof.
  intro r. split.
  - apply (stepObject_moved st now safeDelta dist playerPos obj s).
  - intro Ha. unfold r, stepObject, alienShoot, collide, bind, ret.
    assert (Ha' : active (advance safeDelta dist obj) = false) by exact Ha.
    rewrite Ha', andb_false_r. simpl. rewrite Ha. simpl. auto.
Qed.

(** An iteration that does not set [hasChanges] keeps the object and pushes
    nothing. *)
Lemma stepObject_unchanged st now sd dist pp obj s :
  let r := fst (stepObject st now sd dist pp obj s) in
  changed r = false -> keep r = true /\ spawned r = None.
Proof.
  unfold stepObject, bind.
  destruct (alienShoot (advance sd dist obj) s) as [[o1 sp] s1].
  pose proof (collide_shop st now pp (vz (position obj)) o1 s1) as Hcs.
  assert (Hk : snd (fst (collide st now pp (vz (position obj)) o1 s1)) = false ->
               snd (fst (fst (collide st now pp (vz (position obj)) o1 s1))) = true).
  { unfold collide, dispatchPlayerHit, collectItem, Player.checkHit, when, bind, emit, ret.
    repeat match goal with
           | |- context [if ?b then _ else _] => destruct b; simpl
           | |- context [match ?x with Some _ => _ | None => _ end] =>
               destruct x; simpl
           end; congruence. }
  destruct (collide st now pp (vz (position obj)) o1 s1) as [[[o2 k] ch] s2].
  unfold ret. cbn [fst snd keep spawned changed] in *.
  intro Hch. apply orb_false_iff in Hch as [Hch Hg].
  apply orb_false_iff in Hch as [Hsp Hc].
  rewrite (Hk Hc), Hg. split; [reflexivity|].
  destruct sp; [discriminate | reflexivity].
Qed.

(** The loop's three lists. *)
Lemma stepObjects_lists st now sd dist pp objs : forall s,
  let p := fst (stepObjects st now sd dist pp objs s) in
  Forall (fun o => vz (position o) <= REMOVE_DISTANCE) (keptObjects p)
  /\ Forall (fun o => type o = MISSILE) (newSpawns p)
  /\ (hasChanges p = false -> keptObjects p = mutated p /\ newSpawns p = []).
Proof.
  induction objs as [|obj rest IH]; intro s.
  - simpl. repeat split; constructor.
  - rewrite stepObjects_cons.
    pose proof (stepObject_unchanged st now sd dist pp obj s) as Hu.
    pose proof (stepObject_shop st now sd dist pp obj s) as [_ [_ [_ Hsp]]].
    assert (Hz : keep (fst (stepObject st now sd dist pp obj s)) = true ->
                 vz (position (moved (fst (stepObject st now sd dist pp obj s))))
                 <= REMOVE_DISTANCE).
    { unfold stepObject, bind.
      destruct (alienShoot _ _) as [[o1 sp] s1].
      destruct (collide _ _ _ _ _ _) as [[[o2 k] ch] s2].
      unfold ret. cbn [fst snd keep moved].
      intro Hk. apply andb_true_iff in Hk as [_ Hg].
      apply negb_true_iff in Hg. unfold Qgtb in Hg. apply Qltb_ge in Hg. exact Hg. }
    destruct (stepObject st now sd dist pp obj s) as [r s1].
    specialize (IH s1). destruct IH as [IHk [IHn IHc]].
    destruct (stepObjects st now sd dist pp rest s1) as [p s2].
    cbn [fst snd keptObjects newSpawns mutated hasChanges] in *.
    split; [|split].
    + destruct (keep r); [constructor; auto | exact IHk].
    + destruct (spawned r); [constructor; auto | exact IHn].
    + intro Hc. apply orb_false_iff in Hc as [Hc1 Hc2].
      destruct (Hu Hc1) as [-> ->]. destruct (IHc Hc2) as [-> ->]. auto.
Qed.

End Stepping.

Section SpawnPolicy.
Import LevelManager.
Context {T : Types}.

(** Runs the spawning code symbolically, one goal per path. *)
Ltac spawn_paths :=
  unfold spawnPolicy, getRandomLane, bind, Math_random, uuidv4, ret;
  repeat match goal with
         | |- context [if ?b then _ else _] => destruct b eqn:?; simpl
         end.

Lemma fold_left_Qmin_le zs : forall z,
  fold_left Qmin zs z <= z /\ Forall (fun z' => fold_left Qmin zs z <= z') zs.
Proof.
  induction zs as [|a zs IH]; intro z; simpl.
  - split; [apply Qle_refl | constructor].
  - destruct (IH (Qmin z a)) as [H1 H2]. split.
    + eapply Qle_trans; [exact H1 | apply Q.le_min_l].
    + constructor; [|exact H2].
      eapply Qle_trans; [exact H1 | apply Q.le_min_r].
Qed.

(** [furthestZ] is a lower bound of the [z] of every entity that is not a
    missile. *)
Lemma furthestZ_le kept o :
  In o kept -> isType o MISSILE = false -> furthestZ kept <= vz (position o).
Proof.
  intros Hin Hm. unfold furthestZ.
  assert (Hf : In (vz (position o))
                  (map (fun o => vz (position o))
                       (filter (fun o => negb (isType o MISSILE)) kept))).
  { apply (in_map (fun o => vz (position o))). apply filter_In. rewrite Hm. auto. }
  destruct (map _ _) as [|z zs]; [contradiction|].
  destruct (fold_left_Qmin_le zs z) as [H1 H2].
  destruct Hf as [<- | Hf]; [exact H1|].
  rewrite Forall_forall in H2. apply H2, Hf.
Qed.

Lemma lane_in_range (r : Q) (laneCount : Z) :
  0 <= r < 1 -> (0 <= laneCount)%Z ->
  (- (laneCount / 2)
   <= Qfloor (r * inject_Z (laneCount / 2 * 2 + 1)) - laneCount / 2
   <= laneCount / 2)%Z.
Proof.
  intros [H0 H1] Hn.
  assert (Hm : (0 <= laneCount / 2)%Z) by (apply Z.div_pos; lia).
  assert (H : (0 <= Qfloor (r * inject_Z (laneCount / 2 * 2 + 1))
               < laneCount / 2 * 2 + 1)%Z)
    by (apply Qfloor_in_range; [exact H0 | exact H1 | lia]).
  lia.
Qed.

(** X5.  New entities are spawned far ahead: every entity the spawning code
    creates is active and sits on one spawn line
    [z = min(furthestZ - (12 + 0.4 * speed), -SPAWN_DISTANCE)], which (for a
    non-negative speed) is at or beyond the spawn distance and at least 12
    beyond every entity of the store that is not a missile.  At most two
    entities are created, and none at all -- without any random draw or
    identifier being used -- while the furthest such entity is at or beyond
    the spawn distance. *)
Theorem spawns_land_on_the_spawn_line
        (st : Store) (distance nextLetter : Q) (kept : list GameObject) (s : Sim) :
  0 <= speed st ->
  let spawnZ := Qmin (furthestZ kept - (12 + speed st * 0.4)) (- SPAWN_DISTANCE) in
  let fresh := fst (fst (fst (spawnPolicy st distance nextLetter kept s))) in
  Forall (fun o => active o = true /\ vz (position o) = spawnZ) fresh
  /\ spawnZ <= - SPAWN_DISTANCE
  /\ (forall o, In o kept -> isType o MISSILE = false ->
                spawnZ <= vz (position o) - 12)
  /\ (List.length fresh <= 2)%nat
  /\ (furthestZ kept <= - SPAWN_DISTANCE ->
      spawnPolicy st distance nextLetter kept s = (([], nextLetter, false), s)).
Proof.
  intros Hs spawnZ fresh. split; [|split; [|split; [|split]]].
  - unfold fresh, spawnZ. spawn_paths; repeat constructor.
  - apply Q.le_min_r.
  - intros o Hin Hm. pose proof (furthestZ_le kept o Hin Hm) as Hf.
    assert (Hl : spawnZ <= furthestZ kept - (12 + speed st * 0.4)) by apply Q.le_min_l.
    assert (0 <= speed st * 0.4) by (apply Qmult_le_0_compat; [exact Hs | discriminate]).
    lra.
  - unfold fresh. spawn_paths; lia.
  - intro Hg. unfold spawnPolicy.
    assert (E : (furthestZ kept >? - SPAWN_DISTANCE) = false)
      by (unfold Qgtb; apply Qltb_ge; exact Hg).
    rewrite E. reflexivity.
Qed.

(** X6.  When every draw lies in [0, 1) and the lane count is not negative,
    every entity the spawning code creates is centred on a lane of the
    road: [x = lane * LANE_WIDTH] for an integer lane between
    [-floor(laneCount/2)] and [floor(laneCount/2)].  When two entities are
    created they are an obstacle and a 100-point gem at height 2.5 in the
    obstacle's lane. *)
Theorem spawns_are_centred_on_lanes
        (st : Store) (distance nextLetter : Q) (kept : list GameObject) (s : Sim) :
  (forall n, 0 <= random s n < 1) -> (0 <= laneCount st)%Z ->
  let fresh := fst (fst (fst (spawnPolicy st distance nextLetter kept s))) in
  Forall (fun o => exists lane,
              (- (laneCount st / 2) <= lane <= laneCount st / 2)%Z
              /\ vx (position o) = inject_Z lane * LANE_WIDTH) fresh
  /\ (forall o g, fresh = [o; g] ->
                  type o = OBSTACLE /\ vy (position o) == 0
                  /\ type g = GEM /\ points g = Some 100%Z
                  /\ vx (position g) = vx (position o)
                  /\ vy (position g) == 2.5).
Proof.
  intros Hr Hn fresh. unfold fresh. split.
  - spawn_paths; repeat constructor;
      (eexists; split; [apply lane_in_range; [apply Hr | exact Hn] | reflexivity]).
  - spawn_paths; intros o g E; inversion E; subst; simpl;
      repeat split; reflexivity.
Qed.

(** What the spawning code may create. *)
Lemma spawnPolicy_kinds st distance nextLetter kept s :
  Forall (fun o =>
            (type o = LETTER /\ (distance >=? nextLetter) = true)
            \/ (type o = GEM /\ hasFired o = None)
            \/ (type o = OBSTACLE /\ (distance >=? nextLetter) = false)
            \/ (type o = ALIEN /\ (level st >=? 2)%Z = true
                /\ (distance >=? nextLetter) = false
                /\ hasFired o = Some false /\ vy (position o) = 1.5))
         (fst (fst (fst (spawnPolicy st distance nextLetter kept s)))).
Proof.
  spawn_paths; repeat (apply Forall_cons || apply Forall_nil); simpl; auto 10.
Qed.

(** X7.  The spawning code creates letters, gems, obstacles and aliens only
    -- never a missile or a portal.  A letter is created only when a letter
    is due, an obstacle or an alien only when none is; an alien is created
    only from level 2 on, at height 1.5 and with [hasFired] false. *)
Theorem aliens_only_from_level_two
        (st : Store) (distance nextLetter : Q) (kept : list GameObject) (s : Sim)
        (o : GameObject) :
  In o (fst (fst (fst (spawnPolicy st distance nextLetter kept s)))) ->
  type o <> MISSILE /\ type o <> SHOP_PORTAL
  /\ (type o = LETTER -> nextLetter <= distance)
  /\ (type o = OBSTACLE -> distance < nextLetter)
  /\ (type o = ALIEN ->
      (2 <= level st)%Z /\ distance < nextLetter
      /\ hasFired o = Some false /\ vy (position o) == 1.5).
Proof.
  intro Hin.
  pose proof (spawnPolicy_kinds st distance nextLetter kept s) as H.
  rewrite Forall_forall in H. specialize (H o Hin).
  assert (Hdue : forall b, (distance >=? nextLetter) = b ->
                           if b then nextLetter <= distance else distance < nextLetter).
  { intros [|] E; unfold Qgeb in E.
    - apply Qle_bool_iff, E.
    - apply Qnot_le_lt. intro Hle. apply Qle_bool_iff in Hle. congruence. }
  destruct H as [[Ht Hd] | [[Ht Hf] | [[Ht Hd] | [Ht [Hl [Hd [Hf Hy]]]]]]];
    rewrite Ht;
    (split; [discriminate|]); (split; [discriminate|]);
    (split; [|split]); intro E; try discriminate E.
  - apply (Hdue true Hd).
  - apply (Hdue false Hd).
  - apply Z.geb_le in Hl. repeat split.
    + lia.
    + apply (Hdue false Hd).
    + exact Hf.
    + rewrite Hy. reflexivity.
Qed.

End SpawnPolicy.

Section LetterSpawn.
Import LevelManager.
Context {T : Types}.

Lemma index_in_bounds {A} (l : list A) (k : Z) :
  (0 <= k < Z.of_nat (List.length l))%Z -> exists a, index l k = Some a /\ In a l.
Proof.
  intros [H0 H1]. unfold index.
  destruct (k <? 0)%Z eqn:E; [apply Z.ltb_lt in E; lia|].
  destruct (nth_error l (Z.to_nat k)) as [a|] eqn:En.
  - exists a. split; [reflexivity|]. eapply nth_error_In, En.
  - apply nth_error_None in En. lia.
Qed.

(** X8.  When the spawn gate is open, a letter is due, some letter is still
    uncollected and the draw that picks the letter lies in [0, 1), the
    spawning code creates exactly one entity: a letter at height 1.0 whose
    index is one of 0..5 and is not among the collected ones, carrying that
    index's character and colour; and [nextLetterDistance] advances by the
    letter interval of the current level. *)
Theorem due_letter_is_an_uncollected_one
        (st : Store) (distance nextLetter : Q) (kept : list GameObject) (s : Sim)
        (open_ : Z) :
  - SPAWN_DISTANCE < furthestZ kept ->
  nextLetter <= distance ->
  In open_ [0; 1; 2; 3; 4; 5]%Z -> includes (collectedLetters st) open_ = false ->
  0 <= random s (S (randomIx s)) < 1 ->
  let r := fst (spawnPolicy st distance nextLetter kept s) in
  (exists l i,
      fst (fst r) = [l]
      /\ type l = LETTER /\ active l = true /\ vy (position l) == 1
      /\ targetIndex l = Some i
      /\ (0 <= i <= 5)%Z /\ includes (collectedLetters st) i = false
      /\ value l = index target i
      /\ color l = index GEMINI_COLORS i)
  /\ snd (fst r) = nextLetter + getLetterInterval (level st).
Proof.
  intros Hgate Hdue Hin Hopen [Hr0 Hr1] r.
  apply Qgtb_gt in Hgate.
  assert (Hdue' : (distance >=? nextLetter) = true)
    by (unfold Qgeb; apply Qle_bool_iff; exact Hdue).
  set (available := filter (fun i => negb (includes (collectedLetters st) i))
                           [0; 1; 2; 3; 4; 5]%Z).
  assert (Hav : In open_ available)
    by (apply filter_In; rewrite Hopen; auto).
  assert (Hlen : (0 < List.length available)%nat)
    by (destruct available; [contradiction | simpl; lia]).
  assert (Hk : (0 <= Qfloor (random s (S (randomIx s))
                             * inject_Z (Z.of_nat (List.length available)))
                < Z.of_nat (List.length available))%Z)
    by (apply Qfloor_in_range; [exact Hr0 | exact Hr1 | lia]).
  destruct (index_in_bounds available _ Hk) as [i [Hi Hia]].
  apply filter_In in Hia as [Hi05 Hnot]. apply negb_true_iff in Hnot.
  unfold r, spawnPolicy. rewrite Hgate, Hdue'.
  unfold bind at 1. rewrite getRandomLane_run.
  fold available.
  assert (E : (0 <? List.length available)%nat = true) by (apply Nat.ltb_lt; exact Hlen).
  rewrite E. unfold bind, Math_random, uuidv4, ret. cbn [fst snd random randomIx].
  rewrite Hi. split; [|reflexivity].
  eexists. exists i. split; [reflexivity|]. simpl.
  repeat split; auto; try reflexivity;
    simpl in Hi05; lia.
Qed.

End LetterSpawn.

Section Collisions.
Import LevelManager.
Context {T : Types}.

(** X9.  The z-zone test looks at the whole stretch an entity covers in the
    frame, not only at where it ends up: an entity that moved forward from
    [prevZ] is a collision candidate exactly when some point of the stretch
    from [prevZ] to its new [z] is less than 2 away from the player's
    forward coordinate.  So no entity, however fast, passes through the
    player's zone between two frames without being a candidate. *)
Theorem z_zone_covers_the_whole_move (playerPos : Vec3) (prevZ : Q) (obj : GameObject) :
  prevZ <= vz (position obj) ->
  (inZZone playerPos prevZ obj = true
   <-> exists z, prevZ <= z <= vz (position obj) /\ Qabs (z - vz playerPos) < 2).
Proof.
  intro Hfwd. unfold inZZone. rewrite andb_true_iff, Qltb_lt, Qgtb_gt.
  split.
  - intros [H1 H2].
    destruct (Qlt_le_dec (vz playerPos) prevZ) as [Hlow | Hlow].
    + exists prevZ. split; [split; [apply Qle_refl | exact Hfwd]|].
      apply Qabs_Qlt_condition. split; lra.
    + destruct (Qlt_le_dec (vz (position obj)) (vz playerPos)) as [Hhigh | Hhigh].
      * exists (vz (position obj)). split; [split; [exact Hfwd | apply Qle_refl]|].
        apply Qabs_Qlt_condition. split; lra.
      * exists (vz playerPos). split; [split; assumption|].
        apply Qabs_Qlt_condition. split; lra.
  - intros [z [[Hz1 Hz2] Hz]]. apply Qabs_Qlt_condition in Hz. split; lra.
Qed.

(** The collision tests of a damage source that the player clears or that is
    out of reach: nothing happens. *)
Lemma collide_miss st now pp prevZ obj s :
  isType obj SHOP_PORTAL = false ->
  inZZone pp prevZ obj = false
  \/ (Qabs (vx (position obj) - vx pp) <? 0.8) = false
  \/ (isDamageSource obj = true /\ isHit pp obj = false)
  \/ (isDamageSource obj = false
      /\ (Qabs (vy (position obj) - vy pp) <? 2.5) = false) ->
  collide st now pp prevZ obj s = ((obj, true, false), s).
Proof.
  intros Hp H. unfold collide. rewrite Hp.
  destruct (active obj); [|reflexivity].
  destruct H as [-> | [H | [[H1 H2] | [H1 H2]]]]; [reflexivity| | |].
  - destruct (inZZone pp prevZ obj); [|reflexivity]. rewrite H. reflexivity.
  - destruct (inZZone pp prevZ obj); [|reflexivity].
    destruct (_ <? 0.8); [|reflexivity]. rewrite H1, H2. reflexivity.
  - destruct (inZZone pp prevZ obj); [|reflexivity].
    destruct (_ <? 0.8); [|reflexivity]. rewrite H1, H2. reflexivity.
Qed.

(** An iteration whose collision tests miss: the log and the player's
    protection are untouched and the entity stays as active as it was. *)
Lemma stepObject_miss st now sd dist pp obj s :
  isType obj SHOP_PORTAL = false ->
  inZZone pp (vz (position obj)) (advance sd dist obj) = false
  \/ (Qabs (vx (position obj) - vx pp) <? 0.8) = false
  \/ (isDamageSource obj = true /\ isHit pp (advance sd dist obj) = false)
  \/ (isDamageSource obj = false
      /\ (Qabs (vy (position obj) - vy pp) <? 2.5) = false) ->
  let r := stepObject st now sd dist pp obj s in
  log (snd r) = log s
  /\ isInvincible (snd r) = isInvincible s
  /\ active (moved (fst r)) = active obj.
Proof.
  intros Hp H. unfold stepObject, bind.
  pose proof (alienShoot_frame (advance sd dist obj) s) as [Ho [Hl Hi]].
  destruct (alienShoot (advance sd dist obj) s) as [[o1 sp] s1].
  simpl in Ho, Hl, Hi.
  destruct Ho as [-> | ->];
    (rewrite collide_miss; [| exact Hp | exact H]); simpl; auto.
Qed.

(** X10.  Entities in another lane, or outside the z-zone, never touch the
    player: for every entity that is not a portal and is 0.8 or more away
    from the player's [x], or outside the z-zone, the iteration logs
    nothing, leaves the player's protection alone and leaves the entity as
    active as it was. *)
Theorem other_lanes_never_collide
        (st : Store) (now : Z) (safeDelta dist : Q) (playerPos : Vec3)
        (obj : GameObject) (s : Sim) :
  type obj <> SHOP_PORTAL ->
  0.8 <= Qabs (vx (position obj) - vx playerPos)
  \/ inZZone playerPos (vz (position obj)) (advance safeDelta dist obj) = false ->
  let r := stepObject st now safeDelta dist playerPos obj s in
  log (snd r) = log s
  /\ isInvincible (snd r) = isInvincible s
  /\ active (moved (fst r)) = active obj.
Proof.
  intros Hp H. apply stepObject_miss.
  - unfold isType. destruct (type obj); try reflexivity. congruence.
  - destruct H as [H | H]; [right; left; apply Qltb_ge; exact H | left; exact H].
Qed.

(** X11.  An obstacle's collision band is the fixed band from 0 to 1.5,
    whatever height the obstacle itself has.  So for an active obstacle
    inside the z-zone and the lane tolerance, a player at height 1.5 or more
    passes over it -- nothing is logged and the obstacle stays active --
    while a player at a height from 0 up to, but not including, 1.5 is hit:
    'player-hit' is dispatched and the obstacle is deactivated. *)
Theorem jump_of_one_and_a_half_clears_obstacles
        (st : Store) (now : Z) (safeDelta dist : Q) (playerPos : Vec3)
        (obj : GameObject) (s : Sim) :
  type obj = OBSTACLE -> active obj = true ->
  inZZone playerPos (vz (position obj)) (advance safeDelta dist obj) = true ->
  Qabs (vx (position obj) - vx playerPos) < 0.8 ->
  0 <= vy playerPos ->
  let r := stepObject st now safeDelta dist playerPos obj s in
  (1.5 <= vy playerPos ->
   log (snd r) = log s /\ active (moved (fst r)) = true)
  /\ (vy playerPos < 1.5 ->
      In PlayerHit (log (snd r)) /\ active (moved (fst r)) = false).
Proof.
  intros Ht Ha Hz Hx Hy r.
  assert (Hd : isDamageSource obj = true)
    by (unfold isDamageSource, isType; rewrite Ht; reflexivity).
  assert (Hh : isHit playerPos (advance safeDelta dist obj) = true
               <-> vy playerPos < 1.5).
  { unfold isHit, isType, advance. simpl. rewrite Ht. simpl.
    rewrite andb_true_iff, Qltb_lt, Qgtb_gt. split; [tauto | intro; split; lra]. }
  split.
  - intro Hhigh.
    destruct (stepObject_miss st now safeDelta dist playerPos obj s) as [Hl [_ Hact]].
    + unfold isType. rewrite Ht. reflexivity.
    + right. right. left. split; [exact Hd|].
      destruct (isHit playerPos (advance safeDelta dist obj)); [|reflexivity].
      pose proof (proj1 Hh eq_refl). lra.
    + fold r in Hl, Hact. rewrite Hact. auto.
  - intro Hlow. apply Hh in Hlow.
    unfold r, stepObject, bind.
    pose proof (alienShoot_frame (advance safeDelta dist obj) s) as [Ho _].
    destruct (alienShoot (advance safeDelta dist obj) s) as [[o1 sp] s1].
    simpl in Ho. apply Qltb_lt in Hx.
    destruct Ho as [-> | ->];
      (rewrite collide_damage; [| exact Ha | exact Hd | exact Hz | exact Hx | exact Hlow]);
      (split; [|reflexivity]);
      destruct (protected st s1); simpl;
      repeat (apply in_or_app; first [right; simpl; tauto | left]).
Qed.

End Collisions.

Section Collecting.
Import LevelManager.
Context {T : Types}.

Lemma collectible_not_damage obj :
  type obj = GEM \/ type obj = LETTER ->
  isType obj SHOP_PORTAL = false /\ isDamageSource obj = false
  /\ isType obj ALIEN = false.
Proof. unfold isDamageSource, isType. intros [-> | ->]; auto. Qed.

Lemma stepObject_collect st now sd dist pp obj s :
  type obj = GEM \/ type obj = LETTER ->
  active obj = true ->
  inZZone pp (vz (position obj)) (advance sd dist obj) = true ->
  (Qabs (vx (position obj) - vx pp) <? 0.8) = true ->
  (Qabs (vy (position obj) - vy pp) <? 2.5) = true ->
  stepObject st now sd dist pp obj s
  = (let o := setActive (advance sd dist obj) false in
     let gone := vz (position o) >? REMOVE_DISTANCE in
     (mkStep o None (negb gone) true,
      snd (collectItem (advance sd dist obj) s))).
Proof.
  intros Ht Ha Hz Hx Hy.
  destruct (collectible_not_damage obj Ht) as [Hp [Hd Hal]].
  unfold stepObject, alienShoot, bind.
  change (isType (advance sd dist obj) ALIEN) with (isType obj ALIEN).
  rewrite Hal. simpl. unfold collide, bind.
  change (active (advance sd dist obj)) with (active obj).
  change (isType (advance sd dist obj) SHOP_PORTAL) with (isType obj SHOP_PORTAL).
  change (isDamageSource (advance sd dist obj)) with (isDamageSource obj).
  change (vx (position (advance sd dist obj))) with (vx (position obj)).
  change (vy (position (advance sd dist obj))) with (vy (position obj)).
  rewrite Ha, Hp, Hz, Hx, Hd, Hy.
  destruct (collectItem (advance sd dist obj) s) as [[] s1]. reflexivity.
Qed.

(** X12.  An active gem inside the z-zone, within the lane tolerance and
    less than 2.5 away from the player's height is collected: the iteration
    calls [collectGem] once with the gem's points -- 50 when the gem carries
    none, or 0 --, plays the gem sound, dispatches one particle burst in the
    gem's colour and deactivates the gem.  A letter in the same position is
    collected with its index; a letter without an index is deactivated
    without any [collectLetter] call.  Collecting does not depend on, and
    does not change, the player's invincibility. *)
Theorem collectible_in_reach_is_collected
        (st : Store) (now : Z) (safeDelta dist : Q) (playerPos : Vec3)
        (obj : GameObject) (s : Sim) :
  type obj = GEM \/ type obj = LETTER ->
  active obj = true ->
  inZZone playerPos (vz (position obj)) (advance safeDelta dist obj) = true ->
  Qabs (vx (position obj) - vx playerPos) < 0.8 ->
  Qabs (vy (position obj) - vy playerPos) < 2.5 ->
  let r := stepObject st now safeDelta dist playerPos obj s in
  let burst := ParticleBurst (position (advance safeDelta dist obj)) (colorOrWhite obj) in
  active (moved (fst r)) = false
  /\ isInvincible (snd r) = isInvincible s
  /\ log (snd r)
     = log s
       ++ match type obj, targetIndex obj with
          | GEM, _ => [CollectGem (match points obj with
                                   | Some 0%Z | None => 50%Z
                                   | Some p => p
                                   end);
                       Audio playGemCollect; burst]
          | _, Some i => [CollectLetter i; Audio playLetterCollect; burst]
          | _, None => [burst]
          end.
Proof.
  intros Ht Ha Hz Hx Hy r burst.
  apply Qltb_lt in Hx. apply Qltb_lt in Hy.
  unfold r. rewrite (stepObject_collect st now safeDelta dist playerPos obj s Ht Ha Hz Hx Hy).
  cbn zeta. cbn [fst snd moved]. split; [reflexivity|].
  unfold collectItem, when, bind, emit, ret, burst, pointsOr50, isType.
  change (type (advance safeDelta dist obj)) with (type obj).
  change (targetIndex (advance safeDelta dist obj)) with (targetIndex obj).
  change (points (advance safeDelta dist obj)) with (points obj).
  change (colorOrWhite (advance safeDelta dist obj)) with (colorOrWhite obj).
  destruct Ht as [-> | ->]; simpl.
  - split; [destruct (targetIndex obj); reflexivity|].
    destruct (targetIndex obj); simpl; rewrite <- !app_assoc; simpl;
      destruct (points obj) as [[|p|p]|]; reflexivity.
  - destruct (targetIndex obj); simpl; split; try reflexivity;
      rewrite <- !app_assoc; reflexivity.
Qed.

End Collecting.

Section FrameStore.
Import LevelManager.
Context {T : Types}.

Lemma spawnPolicy_unchanged st distance nextLetter kept s :
  snd (fst (spawnPolicy st distance nextLetter kept s)) = false ->
  fst (fst (fst (spawnPolicy st distance nextLetter kept s))) = [].
Proof.
  unfold spawnPolicy, getRandomLane, bind, Math_random, uuidv4, ret.
  repeat match goal with
         | |- context [if ?b then _ else _] => destruct b; simpl
         end; congruence.
Qed.

(** The store after a Playing frame, whether or not the frame reassigned
    [objectsRef.current]: the kept entities, then the new missiles, then
    what the spawning code created. *)
Lemma frame_store st delta now playerObj lm s :
  status st = PLAYING ->
  let safeDelta := Qmin delta 0.05 in
  let dist := speed st * safeDelta in
  let loop := stepObjects st now safeDelta dist (playerPosOf playerObj)
                          (objectsRef lm) s in
  let kept := keptObjects (fst loop) ++ newSpawns (fst loop) in
  let policy := spawnPolicy st (distanceTraveled lm + dist) (nextLetterDistance lm)
                            kept (snd loop) in
  objectsRef (fst (frame st delta now playerObj lm s))
  = kept ++ fst (fst (fst policy))
  /\ snd (frame st delta now playerObj lm s) = snd policy.
Proof.
  intro Hst. cbv zeta. unfold frame. rewrite Hst. simpl. unfold bind.
  pose proof (stepObjects_lists st now (Qmin delta 0.05) (speed st * Qmin delta 0.05)
                (playerPosOf playerObj) (objectsRef lm) s) as [_ [_ Hc]].
  destruct (stepObjects _ _ _ _ _ _ _) as [p s1]. simpl in Hc |- *.
  match goal with
  | |- context [spawnPolicy ?a ?b ?c ?d ?e] =>
      pose proof (spawnPolicy_unchanged a b c d e) as Hu;
      destruct (spawnPolicy a b c d e) as [[[fresh nl] ch] s2]
  end.
  simpl in Hu |- *.
  destruct (hasChanges p) eqn:Ep; simpl; [auto|].
  destruct ch; simpl; [auto|].
  destruct (Hc eq_refl) as [-> ->]. rewrite (Hu eq_refl), !app_nil_r. auto.
Qed.


End FrameStore.

Section Identifiers.
Import LevelManager.
Context {T : Types}.

Lemma idsWithin_nil a b : idsWithin a b [].
Proof. split; constructor. Qed.

Lemma idsWithin_weaken a b a' b' l :
  (a' <= a)%nat -> (b <= b')%nat -> idsWithin a b l -> idsWithin a' b' l.
Proof.
  intros Ha Hb [Hn Hf]. split; [exact Hn|].
  eapply Forall_impl; [|exact Hf]. simpl. intros. lia.
Qed.

Lemma idsWithin_app a b c l1 l2 :
  (a <= b)%nat -> (b <= c)%nat ->
  idsWithin a b l1 -> idsWithin b c l2 -> idsWithin a c (l1 ++ l2).
Proof.
  intros Hab Hbc [Hn1 Hf1] [Hn2 Hf2]. split.
  - rewrite map_app. apply NoDup_app; [exact Hn1 | exact Hn2 |].
    intros i Hi1 Hi2.
    apply in_map_iff in Hi1 as [o1 [<- Ho1]]. apply in_map_iff in Hi2 as [o2 [E Ho2]].
    rewrite Forall_forall in Hf1, Hf2.
    specialize (Hf1 o1 Ho1). specialize (Hf2 o2 Ho2). lia.
  - apply Forall_app. split.
    + eapply Forall_impl; [|exact Hf1]. simpl. intros. lia.
    + eapply Forall_impl; [|exact Hf2]. simpl. intros. lia.
Qed.

Lemma collide_keeps_uuid st now pp prevZ obj s :
  uuidIx (snd (collide st now pp prevZ obj s)) = uuidIx s.
Proof.
  unfold collide, dispatchPlayerHit, collectItem, Player.checkHit, when, bind, emit, ret.
  repeat match goal with
         | |- context [if ?b then _ else _] => destruct b
         | |- context [match ?x with Some _ => _ | None => _ end] => destruct x
         end; reflexivity.
Qed.

(** The identifiers of one iteration: the object keeps its own, a pushed
    missile gets the next one of the counter. *)
Lemma stepObject_ids st now sd dist pp obj s :
  let r := stepObject st now sd dist pp obj s in
  id (moved (fst r)) = id obj
  /\ match spawned (fst r) with
     | Some m => id m = uuidIx s /\ uuidIx (snd r) = S (uuidIx s)
     | None => uuidIx (snd r) = uuidIx s
     end.
Proof.
  split; [apply (stepObject_moved st now sd dist pp obj s)|].
  unfold stepObject, bind.
  assert (Ha : match snd (fst (alienShoot (advance sd dist obj) s)) with
               | Some m => id m = uuidIx s
                           /\ uuidIx (snd (alienShoot (advance sd dist obj) s))
                              = S (uuidIx s)
               | None => uuidIx (snd (alienShoot (advance sd dist obj) s)) = uuidIx s
               end).
  { unfold alienShoot, bind, uuidv4, ret.
    destruct (_ && _); [|reflexivity]. destruct (_ >? _); simpl; auto. }
  destruct (alienShoot (advance sd dist obj) s) as [[o1 sp] s1].
  pose proof (collide_keeps_uuid st now pp (vz (position obj)) o1 s1) as Hc.
  destruct (collide st now pp (vz (position obj)) o1 s1) as [[[o2 k] ch] s2].
  unfold ret. cbn [fst snd spawned] in *. rewrite Hc. exact Ha.
Qed.

Lemma stepObjects_ids st now sd dist pp objs : forall s,
  let r := stepObjects st now sd dist pp objs s in
  (forall o, In o (keptObjects (fst r)) -> In (id o) (map id objs))
  /\ (NoDup (map id objs) -> NoDup (map id (keptObjects (fst r))))
  /\ idsWithin (uuidIx s) (uuidIx (snd r)) (newSpawns (fst r))
  /\ (uuidIx s <= uuidIx (snd r))%nat.
Proof.
  induction objs as [|obj rest IH]; intro s.
  - simpl. repeat split; try constructor; try lia; try contradiction.
  - rewrite stepObjects_cons.
    pose proof (stepObject_ids st now sd dist pp obj s) as [Hid Hsp].
    destruct (stepObject st now sd dist pp obj s) as [r s1].
    specialize (IH s1). destruct IH as [IHsub [IHnd [[IHnn IHnf] IHle]]].
    destruct (stepObjects st now sd dist pp rest s1) as [p s2].
    cbn [fst snd keptObjects newSpawns moved spawned] in *.
    split; [|split; [|split]].
    + intros o Ho. simpl. destruct (keep r); [destruct Ho as [<- | Ho]|]; auto.
    + intro Hnd. simpl in Hnd. apply NoDup_cons_iff in Hnd as [Hnot Hnd].
      destruct (keep r); [|auto]. simpl. constructor; [|auto].
      rewrite Hid. intro Hin. apply Hnot.
      apply in_map_iff in Hin as [o [<- Ho]]. apply IHsub, Ho.
    + destruct (spawned r) as [m|].
      * destruct Hsp as [Hm Hs1]. rewrite Hs1 in *. split.
        -- simpl. constructor; [|exact IHnn].
           intro Hin. apply in_map_iff in Hin as [o [E Ho]].
           rewrite Forall_forall in IHnf. specialize (IHnf o Ho). lia.
        -- constructor; [lia|].
           eapply Forall_impl; [|exact IHnf]. simpl. intros. lia.
      * rewrite Hsp in *. split; assumption.
    + destruct (spawned r); [destruct Hsp as [_ Hs1]|]; lia.
Qed.

(** The identifiers the spawning code hands out. *)
Lemma spawnPolicy_ids st distance nextLetter kept s :
  let r := spawnPolicy st distance nextLetter kept s in
  idsWithin (uuidIx s) (uuidIx (snd r)) (fst (fst (fst r)))
  /\ (uuidIx s <= uuidIx (snd r))%nat.
Proof.
  unfold idsWithin, spawnPolicy, getRandomLane, bind, Math_random, uuidv4, ret.
  repeat match goal with
         | |- context [if ?b then _ else _] => destruct b; simpl
         end;
    repeat split; try lia;
    repeat (constructor; simpl; try lia; try (intros [E | []]; lia); try tauto).
Qed.

Lemma statusEffect_level_up_uuid st lm s :
  levelUpTransition st lm -> uuidIx (snd (statusEffect st lm s)) = S (uuidIx s).
Proof.
  intros [Hst [Hp1 [Hp2 [Hl Hg]]]]. unfold statusEffect. rewrite Hst. simpl.
  assert (E1 : GameStatus_eqb (prevStatus lm) GAME_OVER = false)
    by (destruct (prevStatus lm); try reflexivity; congruence).
  assert (E2 : GameStatus_eqb (prevStatus lm) VICTORY = false)
    by (destruct (prevStatus lm); try reflexivity; congruence).
  apply Z.eqb_neq in Hl. apply Z.ltb_lt in Hg.
  rewrite E1, E2, Hl, Z.gtb_ltb, Hg. reflexivity.
Qed.

(** X14.  Identifiers are never reused: if the entities of the store carry
    pairwise different identifiers, all handed out before, then after a
    frame they still do, the missiles and spawns of the frame having got
    the next identifiers of the counter; and the same holds after the
    effect on [status] and [level], and so all along every run. *)
Theorem identifiers_stay_unique (actions : list Action) (lm : State) (s : Sim) :
  idsWithin 0 (uuidIx s) (objectsRef lm) ->
  let r := run actions lm s in
  idsWithin 0 (uuidIx (snd r)) (objectsRef (fst r))
  /\ (uuidIx s <= uuidIx (snd r))%nat.
Proof.
  revert lm s. induction actions as [|a rest IH]; intros lm s Hids.
  - simpl. split; [exact Hids | lia].
  - simpl. unfold bind.
    assert (Ha : idsWithin 0 (uuidIx (snd (act a lm s))) (objectsRef (fst (act a lm s)))
                 /\ (uuidIx s <= uuidIx (snd (act a lm s)))%nat).
    { destruct a as [st | st delta now playerObj]; simpl.
      - destruct (statusEffect_branches st lm s) as [[E _] | [[Hl E] | [E _]]].
        + rewrite E. split; [apply idsWithin_nil|].
          unfold statusEffect, bind, uuidv4, emit, ret.
          repeat match goal with
                 | |- context [if ?b then _ else _] => destruct b; simpl
                 end; lia.
        + pose proof (statusEffect_level_up_uuid st lm s Hl) as Hu.
          rewrite E, Hu. split; [|lia].
          apply (idsWithin_app 0 (uuidIx s) (S (uuidIx s))); try lia.
          * destruct Hids as [Hn Hf]. split.
            -- clear -Hn. induction (objectsRef lm) as [|o l IHl]; simpl; [constructor|].
               simpl in Hn. apply NoDup_cons_iff in Hn as [Hnot Hn].
               destruct (_ >? _); [|auto]. simpl. constructor; [|auto].
               intro Hin. apply Hnot. apply in_map_iff in Hin as [o' [<- Ho']].
               apply in_map. apply filter_In in Ho'. tauto.
            -- rewrite Forall_forall in *. intros o Ho.
               apply filter_In in Ho. apply Hf. tauto.
          * split; simpl; repeat constructor; simpl; auto; lia.
        + rewrite E.
          assert (Hu : (uuidIx s <= uuidIx (snd (statusEffect st lm s)))%nat).
          { unfold statusEffect, bind, uuidv4, emit, ret.
            repeat match goal with
                   | |- context [if ?b then _ else _] => destruct b; simpl
                   end; lia. }
          split; [|exact Hu]. eapply idsWithin_weaken; [| |exact Hids]; lia.
      - destruct (GameStatus_eqb (status st) PLAYING) eqn:Est.
        + apply GameStatus_eqb_eq in Est.
          destruct (frame_store st delta now playerObj lm s Est) as [-> ->].
          pose proof (stepObjects_ids st now (Qmin delta 0.05)
                        (speed st * Qmin delta 0.05) (playerPosOf playerObj)
                        (objectsRef lm) s) as [Hsub [Hnd [Hnew Hle]]].
          destruct (stepObjects _ _ _ _ _ _ _) as [p s1].
          cbn [fst snd] in *.
          match goal with
          | |- context [spawnPolicy ?a ?b ?c ?d ?e] =>
              pose proof (spawnPolicy_ids a b c d e) as [Hfresh Hle2]
          end.
          split; [|lia].
          match goal with
          | |- context [spawnPolicy ?a ?b ?c ?d ?e] =>
              apply (idsWithin_app 0 (uuidIx s1) (uuidIx (snd (spawnPolicy a b c d e))));
                [lia | exact Hle2 | | exact Hfresh]
          end.
          apply (idsWithin_app 0 (uuidIx s) (uuidIx s1)); [lia | exact Hle | | exact Hnew].
          destruct Hids as [Hn Hf]. split; [apply Hnd, Hn|].
          rewrite Forall_forall in *. intros o Ho.
          specialize (Hsub o Ho). apply in_map_iff in Hsub as [o' [E Ho']].
          rewrite <- E. apply Hf, Ho'.
        + rewrite frame_not_playing.
          * simpl. split; [exact Hids | lia].
          * intro H. apply GameStatus_eqb_eq in H. congruence. }
    destruct (act a lm s) as [lm' s']. cbn [fst snd] in Ha.
    destruct Ha as [Ha Hle].
    destruct (IH lm' s' Ha) as [H1 H2]. split; [exact H1 | lia].
Qed.

End Identifiers.

Section EffectSettles.
Import LevelManager.
Context {T : Types}.

(** X15.  The effect records the status and level it ran under, and a second
    run under the same store finds nothing left to do to the simulation:
    the entity store, the accumulated distance and the next letter distance
    are left as the first run left them.  In particular a level-up injects
    its portal once, not once per render. *)
Theorem effect_settles_after_one_run (st : Store) (lm : State) (s s' : Sim) :
  let lm1 := fst (statusEffect st lm s) in
  let lm2 := fst (statusEffect st lm1 s') in
  prevStatus lm1 = status st /\ prevLevel lm1 = level st
  /\ objectsRef lm2 = objectsRef lm1
  /\ distanceTraveled lm2 = distanceTraveled lm1
  /\ nextLetterDistance lm2 = nextLetterDistance lm1
  /\ prevStatus lm2 = status st /\ prevLevel lm2 = level st.
Proof.
  cbv zeta. unfold statusEffect, bind, uuidv4, emit, ret.
  destruct (status st) eqn:Est; simpl;
    repeat (rewrite ?Z.eqb_refl; simpl;
            match goal with
            | |- context [if ?b then _ else _] => destruct b eqn:?; simpl
            end);
    rewrite ?Z.eqb_refl; simpl; repeat split; reflexivity.
Qed.

End EffectSettles.


(** * Properties of the particle system *)

Section ParticleFacts.
Import Particles.
Context {G : Trig}.

Lemma alive_dead p : alive p = negb (Qle_bool (life p) 0).
Proof. reflexivity. Qed.

Lemma revive_run position color s :
  revive position color s
  = (mkParticle (0.8 + random s (randomIx s) * 0.4) position
       (mkVec3 (Math_sin (random s (S (S (randomIx s))) * Math_PI)
                * Math_cos (random s (S (randomIx s)) * Math_PI * 2)
                * (2 + random s (S (S (S (randomIx s)))) * 5))
               (Math_sin (random s (S (S (randomIx s))) * Math_PI)
                * Math_sin (random s (S (randomIx s)) * Math_PI * 2)
                * (2 + random s (S (S (S (randomIx s)))) * 5))
               (Math_cos (random s (S (S (randomIx s))) * Math_PI)
                * (2 + random s (S (S (S (randomIx s)))) * 5)))
       color,
     mkSim (random s) (4 + randomIx s) (uuidIx s) (isInvincible s)
           (lastDamageTime s) (log s)).
Proof. reflexivity. Qed.

Lemma explode_cons position color spawned p rest :
  explode position color spawned (p :: rest)
  = if Qle_bool (life p) 0 then
      bind (revive position color)
           (fun p' => if (burstAmount <=? S spawned)%nat then ret (p' :: rest)
                      else bind (explode position color (S spawned) rest)
                                (fun rest' => ret (p' :: rest')))
    else bind (explode position color spawned rest) (fun rest' => ret (p :: rest')).
Proof. reflexivity. Qed.

Lemma explode_spec position color particles : forall spawned s,
  (spawned < burstAmount)%nat ->
  (forall n, 0 <= random s n < 1) ->
  let r := explode position color spawned particles s in
  let dead := List.length (filter (fun p => negb (alive p)) particles) in
  Forall2 (burstRelates position color) particles (fst r)
  /\ List.length (filter alive (fst r))
     = (List.length (filter alive particles) + Nat.min (burstAmount - spawned) dead)%nat
  /\ randomIx (snd r) = (4 * Nat.min (burstAmount - spawned) dead + randomIx s)%nat
  /\ random (snd r) = random s
  /\ log (snd r) = log s.
Proof.
  induction particles as [|p rest IH]; intros spawned s Hsp Hr.
  - cbv zeta. unfold explode, ret. cbn [fst snd filter List.length].
    rewrite !Nat.min_0_r. repeat split; constructor.
  - rewrite explode_cons.
    assert (Hp : alive p = negb (Qle_bool (life p) 0)) by reflexivity.
    cbv zeta. cbn [filter]. rewrite Hp.
    destruct (Qle_bool (life p) 0) eqn:Ed; cbn [negb].
    + unfold bind. rewrite revive_run.
      assert (Hlife : 0.8 <= 0.8 + random s (randomIx s) * 0.4
                      /\ 0.8 + random s (randomIx s) * 0.4 < 1.2).
      { destruct (Hr (randomIx s)). split; lra. }
      set (q := mkParticle (0.8 + random s (randomIx s) * 0.4) position _ color).
      assert (Hal : alive q = true).
      { unfold alive, q. simpl. apply Qgtb_gt. lra. }
      assert (Hrel : burstRelates position color p q).
      { split.
        - rewrite Hp. discriminate.
        - right. rewrite Hp. unfold q. simpl. tauto. }
      destruct (burstAmount <=? S spawned)%nat eqn:Eb.
      * apply Nat.leb_le in Eb.
        assert (Hone : (burstAmount - spawned = 1)%nat) by lia.
        unfold ret. cbn [fst snd]. cbn [filter]. rewrite Hal. cbn [List.length].
        rewrite Hone. repeat split.
        -- constructor; [exact Hrel|].
           clear. induction rest; constructor; auto. split; auto.
        -- lia.
      * apply Nat.leb_gt in Eb.
        match goal with
        | |- context [explode position color (S spawned) rest ?s1] =>
            specialize (IH (S spawned) s1 Eb Hr)
        end.
        destruct (explode position color (S spawned) rest _) as [rest' s2].
        unfold ret. cbn [fst snd] in *. cbn [filter]. rewrite Hal.
        cbv zeta in IH. destruct IH as [IH1 [IH2 [IH3 [IH4 IH5]]]].
        cbn [randomIx random log List.length] in *.
        repeat split; auto.
        -- rewrite IH2. lia.
        -- rewrite IH3. lia.
    + unfold bind. specialize (IH spawned s Hsp Hr).
      destruct (explode position color spawned rest s) as [rest' s2].
      unfold ret. cbn [fst snd] in *. cbn [filter]. rewrite Hp. cbn [negb].
      cbv zeta in IH. destruct IH as [IH1 [IH2 [IH3 [IH4 IH5]]]].
      cbn [List.length].
      repeat split; auto.
      * constructor; [|exact IH1]. split; auto.
      * rewrite IH2. lia.
Qed.

(** X16.  A particle burst revives dead particles only, in pool order, and
    at most 30 of them: with draws in [0, 1), the number of live particles
    grows by the smaller of 30 and the number of dead ones, every live
    particle is left exactly as it was, and every revived one starts at the
    burst position, in the burst colour, with a life of at least 0.8 and
    less than 1.2.  Four draws are used per revived particle and nothing is
    logged. *)
Theorem burst_revives_at_most_thirty
        (position : Vec3) (color : string) (particles : list Particle) (s : Sim) :
  (forall n, 0 <= random s n < 1) ->
  let r := handleExplosion position color particles s in
  let dead := List.length (filter (fun p => negb (alive p)) particles) in
  List.length (fst r) = List.length particles
  /\ Forall2 (burstRelates position color) particles (fst r)
  /\ List.length (filter alive (fst r))
     = (List.length (filter alive particles) + Nat.min 30 dead)%nat
  /\ randomIx (snd r) = (4 * Nat.min 30 dead + randomIx s)%nat
  /\ log (snd r) = log s.
Proof.
  intros Hr r dead.
  destruct (explode_spec position color particles 0 s) as [H1 [H2 [H3 [_ H5]]]];
    [unfold burstAmount; lia | exact Hr |].
  fold r in H1, H2, H3, H5. fold dead in H2, H3.
  change (burstAmount - 0)%nat with 30%nat in H2, H3.
  repeat split; auto.
  symmetry. eapply Forall2_length, H1.
Qed.

Lemma age_dead sd p : alive p = false -> age sd p = p.
Proof. unfold age, alive. intros ->. reflexivity. Qed.

Lemma age_life sd p : 0 <= sd -> life (age sd p) <= life p
                                  /\ life p - sd <= life (age sd p).
Proof.
  intro H. unfold age. destruct (life p >? 0); cbn [life]; split; lra.
Qed.

Lemma iter_frame_dead n delta p :
  0 <= delta -> life p <= inject_Z (Z.of_nat n) * Qmin delta 0.1 ->
  alive (Nat.iter n (age (Qmin delta 0.1)) p) = false.
Proof.
  intro Hd.
  assert (Hsd : 0 <= Qmin delta 0.1) by (apply Q.min_glb; [exact Hd | discriminate]).
  revert p. induction n as [|n IH]; intros p Hl.
  - change (inject_Z (Z.of_nat 0)) with 0 in Hl. cbn [Nat.iter nat_rect].
    unfold alive, Qgtb. apply Qltb_ge. lra.
  - rewrite Nat.iter_succ_r. apply IH.
    unfold age. destruct (life p >? 0) eqn:E; cbn [life].
    + rewrite Nat2Z.inj_succ in Hl. unfold Z.succ in Hl. rewrite inject_Z_plus in Hl.
      change (inject_Z 1) with 1 in Hl. lra.
    + apply Qltb_ge in E.
      assert (0 <= inject_Z (Z.of_nat n) * Qmin delta 0.1).
      { apply Qmult_le_0_compat; [|exact Hsd].
        change 0 with (inject_Z 0). rewrite <- Zle_Qle. lia. }
      lra.
Qed.

(** X17.  A frame only ages particles: with a non-negative frame time no
    particle gains life, a dead particle is left exactly as it is (so the
    number of live particles never grows), and a live one loses
    [min(delta, 0.1)] of life.  Hence every particle whose life is at most
    [n * min(delta, 0.1)] is dead after [n] frames; without a mesh the frame
    changes nothing. *)
Theorem frames_only_age_particles
        (delta : Q) (particles : list Particle) (n : nat) :
  0 <= delta ->
  Forall2 (fun p p' => life p' <= life p
                       /\ (alive p = false -> p' = p)
                       /\ (alive p = true -> life p' == life p - Qmin delta 0.1))
          particles (useFrame true delta particles)
  /\ (List.length (filter alive (useFrame true delta particles))
      <= List.length (filter alive particles))%nat
  /\ (Forall (fun p => life p <= inject_Z (Z.of_nat n) * Qmin delta 0.1) particles ->
      Forall (fun p => alive p = false) (Nat.iter n (useFrame true delta) particles))
  /\ useFrame false delta particles = particles.
Proof.
  intro Hd.
  assert (Hsd : 0 <= Qmin delta 0.1) by (apply Q.min_glb; [exact Hd | discriminate]).
  unfold useFrame. simpl. split; [|split; [|split]].
  - induction particles as [|p rest IH]; simpl; constructor; [|exact IH].
    split; [apply age_life, Hsd|]. split; [apply age_dead|].
    unfold age, alive. intros ->. reflexivity.
  - induction particles as [|p rest IH]; simpl; [lia|].
    destruct (alive p) eqn:E.
    + destruct (alive (age (Qmin delta 0.1) p)); simpl; lia.
    + rewrite (age_dead _ p E), E. exact IH.
  - intro Hl.
    assert (Hit : Nat.iter n (fun ps => map (age (Qmin delta 0.1)) ps) particles
                  = map (Nat.iter n (age (Qmin delta 0.1))) particles).
    { clear. induction n as [|n IH]; simpl.
      - symmetry. apply map_id.
      - rewrite IH, map_map. reflexivity. }
    rewrite Hit. apply Forall_map.
    eapply Forall_impl; [|exact Hl]. simpl. intros p Hp.
    apply iter_frame_dead; assumption.
  - reflexivity.
Qed.

End ParticleFacts.


(** * Properties of the player's animation loop *)

Section PlayerFrameFacts.
Import Player PlayerFrame.
Context {T : Types} {G : Trig}.

Lemma triggerJump_jumps st p s n :
  (n = 1 \/ n = 2)%Z -> (hasDoubleJump st = true -> n = 2%Z) ->
  jumpsWithin n p -> jumpsWithin n (fst (triggerJump st p s)).
Proof.
  intros Hn Hdj [[Hg [Ha Hy]] Hle]. unfold triggerJump.
  destruct (isJumping p) eqn:Ej; simpl.
  - specialize (Ha eq_refl).
    destruct (hasDoubleJump st) eqn:Ed.
    + specialize (Hdj eq_refl). subst n.
      destruct (jumpsPerformed p <? 2)%Z eqn:El; simpl.
      * apply Z.ltb_lt in El. unfold jumpsWithin, jumpConsistent. simpl.
        rewrite ?Ej. repeat split; try discriminate; try lia. exact Hy.
      * unfold jumpsWithin, jumpConsistent. rewrite ?Ej.
        repeat split; try discriminate; try lia; auto.
    + destruct (jumpsPerformed p <? 1)%Z eqn:El; simpl.
      * apply Z.ltb_lt in El. lia.
      * unfold jumpsWithin, jumpConsistent. rewrite ?Ej.
        repeat split; try discriminate; try lia; auto.
  - unfold jumpsWithin, jumpConsistent. simpl.
    repeat split; try discriminate; try lia. exact Hy.
Qed.

Lemma clampLane_jumps laneCount p n :
  jumpsWithin n p -> jumpsWithin n (clampLane laneCount p).
Proof.
  unfold clampLane. destruct (_ >? _)%Z; auto.
Qed.

Lemma handleInput_jumps st i p s n :
  (n = 1 \/ n = 2)%Z -> (hasDoubleJump st = true -> n = 2%Z) ->
  jumpsWithin n p -> jumpsWithin n (fst (handleInput st i p s)).
Proof.
  intros Hn Hdj Hp. unfold handleInput, bind.
  destruct i as [key | dx dy].
  - assert (Hh : jumpsWithin n (fst (handleKeyDown st key p s))).
    { unfold handleKeyDown.
      repeat match goal with
             | |- context [if ?b then _ else _] => destruct b
             end; try exact Hp; try (apply triggerJump_jumps; assumption). }
    destruct (handleKeyDown st key p s) as [p' s'].
    apply clampLane_jumps, Hh.
  - assert (Hh : jumpsWithin n (fst (handleTouchEnd st dx dy p s))).
    { unfold handleTouchEnd.
      repeat match goal with
             | |- context [if ?b then _ else _] => destruct b
             end; try exact Hp; try (apply triggerJump_jumps; assumption). }
    destruct (handleTouchEnd st dx dy p s) as [p' s'].
    apply clampLane_jumps, Hh.
Qed.

Lemma physics_jumps delta bodyMesh y p n :
  (0 <= n)%Z -> groupY p = Some y ->
  jumpsWithin n p -> jumpsWithin n (physics delta bodyMesh y p).
Proof.
  intros Hn Hy Hp. unfold physics.
  destruct (isJumping p) eqn:Ej; [|exact Hp].
  destruct Hp as [[Hg [Ha Hh]] Hle]. specialize (Ha Ej).
  destruct (Qle_bool (y + velocityY p * delta) 0) eqn:El; simpl.
  - unfold jumpsWithin, jumpConsistent. simpl.
    repeat split; auto; try discriminate; try lia; try apply Qle_refl.
  - assert (Hpos : 0 <= y + velocityY p * delta).
    { apply Qlt_le_weak, Qnot_le_lt. intro H. apply Qle_bool_iff in H. congruence. }
    destruct ((jumpsPerformed p =? 2)%Z && bodyMesh);
      unfold jumpsWithin, jumpConsistent; simpl;
      repeat split; auto; try discriminate; try lia.
Qed.

Lemma resetOnStatus_jumps status p n :
  (0 <= n)%Z -> jumpsWithin n p -> jumpsWithin n (resetOnStatus status p).
Proof.
  intros Hn Hp. destruct status; try exact Hp.
  unfold jumpsWithin, jumpConsistent. simpl.
  repeat split; auto; try discriminate;
    destruct (groupY p); auto; try apply Qle_refl; try exact I.
Qed.

Lemma act_jumps a pp s n :
  (n = 1 \/ n = 2)%Z ->
  (match a with Input_ st _ => hasDoubleJump st = true -> n = 2%Z | _ => True end) ->
  jumpsWithin n (fst pp) -> jumpsWithin n (fst (fst (act a pp s))).
Proof.
  intros Hn Ha Hp. destruct a as [st i | st delta now bodyMesh | status]; simpl.
  - unfold bind.
    pose proof (handleInput_jumps st i (fst pp) s n Hn Ha Hp) as H.
    destruct (handleInput st i (fst pp) s). exact H.
  - unfold useFrame. destruct (groupY (fst pp)) as [y|] eqn:Ey; [|exact Hp].
    destruct (_ && _); [exact Hp|].
    unfold bind. destruct (flicker st now s). simpl.
    apply physics_jumps; [lia | exact Ey | exact Hp].
  - apply resetOnStatus_jumps; [lia | exact Hp].
Qed.

(** X18.  Whatever inputs, frames and status changes a mounted player goes
    through, in whatever order and with whatever frame times, its jump state
    stays consistent: on the ground it has no jump pending, zero vertical
    velocity and height 0; in the air it has used one or two jumps; its
    height is never negative.  If no input comes from a store that owns the
    double jump, it never has more than one jump used. *)
Theorem jump_state_stays_consistent
        (actions : list Action) (attached : bool) (pose : Pose) (s : Sim) :
  let p := fst (fst (run actions (initial attached, pose) s)) in
  jumpConsistent p
  /\ (0 <= jumpsPerformed p <= 2)%Z
  /\ (withoutDoubleJump actions -> (jumpsPerformed p <= 1)%Z).
Proof.
  assert (Hrun : forall n acts pp s0,
             (n = 1 \/ n = 2)%Z ->
             Forall (fun a => match a with
                              | Input_ st _ => hasDoubleJump st = true -> n = 2%Z
                              | _ => True
                              end) acts ->
             jumpsWithin n (fst pp) ->
             jumpsWithin n (fst (fst (run acts pp s0)))).
  { intros n acts. induction acts as [|a rest IH]; intros pp s0 Hn Hf Hp; simpl.
    - exact Hp.
    - inversion Hf; subst. unfold bind.
      pose proof (act_jumps a pp s0 n Hn H1 Hp) as Ha.
      destruct (act a pp s0) as [pp' s1]. simpl in Ha. apply IH; assumption. }
  assert (H0 : forall n, (0 <= n)%Z -> jumpsWithin n (initial attached)).
  { intros n Hn. unfold jumpsWithin, jumpConsistent, initial. simpl.
    repeat split; auto; try discriminate;
      destruct attached; auto; try apply Qle_refl; try exact I. }
  intro p. split; [|split].
  - apply (Hrun 2%Z actions (initial attached, pose) s); [auto | | apply H0; lia].
    apply Forall_forall. intros a _. destruct a; auto.
  - destruct (Hrun 2%Z actions (initial attached, pose) s) as [[Hg [Ha _]] Hle];
      [auto | | apply H0; lia |].
    + apply Forall_forall. intros a _. destruct a; auto.
    + fold p in Hg, Ha, Hle. split; [|exact Hle].
      destruct (isJumping p) eqn:E; [specialize (Ha eq_refl); lia|].
      destruct (Hg eq_refl) as [-> _]. lia.
  - intro Hno.
    apply (Hrun 1%Z actions (initial attached, pose) s); [auto | | apply H0; lia].
    unfold withoutDoubleJump in Hno.
    eapply Forall_impl; [|exact Hno]. simpl. intros a Ha.
    destruct a; auto. intro E. congruence.
Qed.

End PlayerFrameFacts.

Section PlayerFrameMore.
Import Player PlayerFrame.
Context {T : Types} {G : Trig}.

Lemma useFrame_running st delta now bodyMesh p pose s y :
  groupY p = Some y -> status st = PLAYING \/ status st = SHOP ->
  useFrame st delta now bodyMesh p pose s
  = ((physics delta bodyMesh y p,
      mkPose (lerp (posX pose) (inject_Z (lane p) * LANE_WIDTH) (delta * 12))
             (fst (flicker st now s))),
     snd (flicker st now s)).
Proof.
  intros Hy Hst. unfold useFrame. rewrite Hy.
  assert (E : negb (GameStatus_eqb (status st) PLAYING)
              && negb (GameStatus_eqb (status st) SHOP) = false)
    by (destruct Hst as [-> | ->]; reflexivity).
  rewrite E. unfold bind. destruct (flicker st now s). reflexivity.
Qed.

(** X19.  After a hit that costs a life the player is invincible, and stays
    so until a frame of the player's own loop sees that more than 1500 ms
    have gone by since the hit.  A second hit is free if no such frame ran
    in between, however late it comes; after a frame at clock [now] it costs
    a life exactly when [now] is more than 1500 ms after the first hit. *)
Theorem invincibility_ends_in_the_players_frame
        (st : Store) (hit1 now hit2 : Z) (delta : Q) (bodyMesh : bool)
        (p : State) (pose : Pose) (s : Sim) (y : Q) :
  isInvincible s = false -> isImmortalityActive st = false ->
  groupY p = Some y -> status st = PLAYING \/ status st = SHOP ->
  let s1 := snd (checkHit st hit1 s) in
  let s2 := snd (useFrame st delta now bodyMesh p pose s1) in
  count isTakeDamage (log s1) = (count isTakeDamage (log s) + 1)%nat
  /\ isInvincible s1 = true
  /\ count isTakeDamage (log (snd (checkHit st hit2 s1)))
     = (count isTakeDamage (log s) + 1)%nat
  /\ isInvincible s2 = negb (now - hit1 >? 1500)%Z
  /\ count isTakeDamage (log (snd (checkHit st hit2 s2)))
     = (count isTakeDamage (log s)
        + if (now - hit1 >? 1500)%Z then 2 else 1)%nat.
Proof.
  intros Hi Him Hy Hst s1 s2.
  unfold s2. rewrite (useFrame_running st delta now bodyMesh p pose s1 y Hy Hst).
  unfold s1, checkHit, flicker. rewrite Hi, Him. simpl.
  destruct (now - hit1 >? 1500)%Z; simpl;
    rewrite ?count_app; unfold count; simpl; repeat split; lia.
Qed.

(** X20.  While the status is Playing or Shop and the group is mounted, a
    frame moves the player's [x] toward the centre of its lane by the
    factor [12 * delta]: the offset from the lane centre is multiplied by
    [1 - 12 * delta].  So for a frame time from 0 to 1/12 the player gets
    no further from the lane centre and never overshoots it, and at
    exactly 1/12 it lands on it.  Under any other status, or without the
    group, the frame changes nothing. *)
Theorem player_slides_toward_its_lane
        (st : Store) (delta : Q) (now : Z) (bodyMesh : bool)
        (p : State) (pose : Pose) (s : Sim) :
  let r := useFrame st delta now bodyMesh p pose s in
  let target := inject_Z (lane p) * LANE_WIDTH in
  (groupY p <> None -> status st = PLAYING \/ status st = SHOP ->
   posX (snd (fst r)) - target == (1 - delta * 12) * (posX pose - target)
   /\ (0 <= delta -> delta * 12 <= 1 ->
       Qabs (posX (snd (fst r)) - target) <= Qabs (posX pose - target))
   /\ (delta * 12 == 1 -> posX (snd (fst r)) == target))
  /\ (groupY p = None \/ (status st <> PLAYING /\ status st <> SHOP) ->
      r = ((p, pose), s)).
Proof.
  intros r target. split.
  - intros Hy Hst. destruct (groupY p) as [y|] eqn:Ey; [|congruence].
    unfold r. rewrite (useFrame_running st delta now bodyMesh p pose s y Ey Hst).
    cbn [fst snd posX]. fold target.
    assert (E : lerp (posX pose) target (delta * 12) - target
                == (1 - delta * 12) * (posX pose - target))
      by (unfold lerp; ring).
    split; [exact E | split].
    + intros H0 H1. rewrite E, Qabs_Qmult.
      rewrite (Qabs_pos (1 - delta * 12)) by lra.
      setoid_replace (Qabs (posX pose - target))
        with (1 * Qabs (posX pose - target)) at 2 by ring.
      apply Qmult_le_compat_r; [lra | apply Qabs_nonneg].
    + intro H1. unfold lerp. rewrite H1. ring.
  - intros [Hy | [H1 H2]]; unfold r, useFrame.
    + rewrite Hy. reflexivity.
    + destruct (groupY p); [|reflexivity].
      destruct (status st); try congruence; reflexivity.
Qed.

Lemma handler_lane st i p s :
  let p' := fst (match i with
                 | KeyDown key => handleKeyDown st key p s
                 | TouchEnd dx dy => handleTouchEnd st dx dy p s
                 end) in
  lane p' = lane p
  \/ lane p' = Z.max (lane p - 1) (- maxLaneOf (laneCount st))
  \/ lane p' = Z.min (lane p + 1) (maxLaneOf (laneCount st)).
Proof.
  destruct i as [key | dx dy]; simpl.
  - unfold handleKeyDown.
    repeat match goal with
           | |- context [if ?b then _ else _] => destruct b
           end; simpl; auto; left; apply triggerJump_lane.
  - unfold handleTouchEnd.
    repeat match goal with
           | |- context [if ?b then _ else _] => destruct b
           end; simpl; auto; left; apply triggerJump_lane.
Qed.

(** X21.  An input moves the player by one lane at most and never off the
    road; outside the Playing status it changes nothing and calls nothing.
    While Playing, a step to the left followed by a step to the right
    brings the player back to its lane unless it stood on the leftmost
    lane, where the step to the left is ignored. *)
Theorem inputs_move_one_lane_at_most (st : Store) (i : Input) (p : State) (s : Sim) :
  (0 <= laneCount st)%Z -> laneInRange (laneCount st) p ->
  let r := handleInput st i p s in
  (Z.abs (lane (fst r) - lane p) <= 1)%Z
  /\ laneInRange (laneCount st) (fst r)
  /\ (status st <> PLAYING -> r = (p, s))
  /\ (status st = PLAYING ->
      lane (fst (handleInputs st [KeyDown "ArrowLeft"; KeyDown "ArrowRight"] p s))
      = if (lane p =? - maxLaneOf (laneCount st))%Z
        then Z.min (lane p + 1) (maxLaneOf (laneCount st))
        else lane p).
Proof.
  intros Hn Hp r.
  assert (Hm : (0 <= maxLaneOf (laneCount st))%Z) by (apply Z.div_pos; lia).
  assert (Hclamp : forall q, laneInRange (laneCount st) q -> clampLane (laneCount st) q = q).
  { intros q Hq. unfold clampLane, laneInRange in *.
    destruct (Z.abs (lane q) >? maxLaneOf (laneCount st))%Z eqn:E; [|reflexivity].
    rewrite Z.gtb_ltb in E. apply Z.ltb_lt in E. lia. }
  split; [|split; [|split]].
  - unfold r, handleInput, bind.
    pose proof (handler_lane st i p s) as Hl. cbv zeta in Hl.
    unfold laneInRange in Hp.
    destruct i as [key | dx dy].
    + destruct (handleKeyDown st key p s) as [p' s']. cbn [fst] in Hl.
      unfold ret. cbn [fst].
      rewrite Hclamp by (unfold laneInRange; lia). lia.
    + destruct (handleTouchEnd st dx dy p s) as [p' s']. cbn [fst] in Hl.
      unfold ret. cbn [fst].
      rewrite Hclamp by (unfold laneInRange; lia). lia.
  - apply handleInput_inRange; assumption.
  - intro Hst. unfold r, handleInput, bind.
    assert (E : negb (GameStatus_eqb (status st) PLAYING) = true)
      by (destruct (status st); try reflexivity; congruence).
    destruct i; unfold handleKeyDown, handleTouchEnd; rewrite E;
      unfold ret; rewrite (Hclamp p Hp); reflexivity.
  - intro Hst. unfold laneInRange in Hp.
    set (m := maxLaneOf (laneCount st)) in *.
    set (q1 := setLane (fun l => Z.max (l - 1) (- m)) p).
    set (q2 := setLane (fun l => Z.min (l + 1) m) q1).
    assert (H1 : handleInput st (KeyDown "ArrowLeft") p s = (q1, s)).
    { unfold handleInput, handleKeyDown, bind, ret. rewrite Hst. simpl.
      fold m. fold q1. rewrite Hclamp; [reflexivity|].
      unfold laneInRange, q1, setLane. simpl. fold m. lia. }
    assert (H2 : handleInput st (KeyDown "ArrowRight") q1 s = (q2, s)).
    { unfold handleInput, handleKeyDown, bind, ret. rewrite Hst. simpl.
      fold m. fold q2. rewrite Hclamp; [reflexivity|].
      unfold laneInRange, q2, q1, setLane. simpl. fold m. lia. }
    cbn [handleInputs]. unfold bind. rewrite H1, H2. unfold ret. cbn [fst].
    unfold q2, q1, setLane. simpl.
    destruct (lane p =? - m)%Z eqn:E.
    + apply Z.eqb_eq in E. rewrite E. f_equal. lia.
    + apply Z.eqb_neq in E. lia.
Qed.

End PlayerFrameMore.


(** * Properties of the shop screen and of the lane guides *)

Section ShopFacts.
Import Shop.
Context {S : Shuffle}.

Lemma firstn_sublist {A} n (l : list A) a : In a (firstn n l) -> In a l.
Proof.
  revert l. induction n as [|n IH]; intros [|b l]; simpl; try tauto.
  intros [-> | H]; auto.
Qed.

Lemma firstn_NoDup {A} n (l : list A) : NoDup l -> NoDup (firstn n l).
Proof.
  revert l. induction n as [|n IH]; intros [|b l] H; simpl; try constructor.
  - inversion H; subst. intro Hin. apply firstn_sublist in Hin. contradiction.
  - inversion H; subst. auto.
Qed.

(** X22.  The shop never offers a one-time upgrade the player already owns:
    whatever order the shuffle produces, every item shown comes from the
    catalogue, no item is shown twice, the double jump is not shown once
    owned and neither is the golden coat.  Three items are shown, unless
    both upgrades are owned: then exactly the two that are left, the extra
    heart and the fish. *)
Theorem shop_never_offers_owned_upgrades (hasDoubleJump hasImmortality : bool) :
  let shown := items hasDoubleJump hasImmortality in
  (forall item, In item shown -> In item SHOP_ITEMS)
  /\ NoDup (map itemId shown)
  /\ (hasDoubleJump = true -> ~ In "DOUBLE_JUMP"%string (map itemId shown))
  /\ (hasImmortality = true -> ~ In "IMMORTAL"%string (map itemId shown))
  /\ List.length shown = (if hasDoubleJump && hasImmortality then 2 else 3)%nat
  /\ (hasDoubleJump = true -> hasImmortality = true ->
      In "MAX_LIFE"%string (map itemId shown) /\ In "HEAL"%string (map itemId shown)).
Proof.
  intro shown. unfold shown, items.
  set (pool := filter (available hasDoubleJump hasImmortality) SHOP_ITEMS).
  pose proof (sortRandomly_rearranges pool) as Hperm.
  assert (Hin : forall item, In item (firstn 3 (sortRandomly pool)) -> In item pool).
  { intros item H. apply firstn_sublist in H.
    eapply Permutation_in; [apply Permutation_sym, Hperm | exact H]. }
  assert (Hnd : NoDup (map itemId pool)).
  { unfold pool. destruct hasDoubleJump, hasImmortality; simpl;
      repeat (constructor; [simpl; intuition discriminate|]); constructor. }
  assert (Hlen : List.length (sortRandomly pool) = List.length pool)
    by (symmetry; apply Permutation_length, Hperm).
  split; [|split; [|split; [|split; [|split]]]].
  - intros item H. apply Hin in H. unfold pool in H. apply filter_In in H. tauto.
  - rewrite <- firstn_map. apply firstn_NoDup.
    eapply Permutation_NoDup; [apply Permutation_map, Hperm | exact Hnd].
  - intros -> H. apply in_map_iff in H as [item [Hid Hi]]. apply Hin in Hi.
    unfold pool in Hi. apply filter_In in Hi as [_ Hav].
    unfold available in Hav. rewrite Hid in Hav. simpl in Hav. discriminate.
  - intros -> H. apply in_map_iff in H as [item [Hid Hi]]. apply Hin in Hi.
    unfold pool in Hi. apply filter_In in Hi as [_ Hav].
    unfold available in Hav. rewrite Hid in Hav. simpl in Hav.
    destruct hasDoubleJump; discriminate.
  - rewrite length_firstn, Hlen. unfold pool.
    destruct hasDoubleJump, hasImmortality; reflexivity.
  - intros -> ->.
    assert (Hall : firstn 3 (sortRandomly pool) = sortRandomly pool).
    { apply firstn_all2. rewrite Hlen. unfold pool. simpl. lia. }
    rewrite Hall.
    assert (Hp : Permutation (map itemId pool) (map itemId (sortRandomly pool)))
      by (apply Permutation_map, Hperm).
    split; (eapply Permutation_in; [exact Hp|]); unfold pool; simpl; auto.
Qed.

End ShopFacts.

Section LaneGuideFacts.
Import LaneGuides.
Context {T : Types}.

(** X23.  The lane guides draw one line more than there are lanes, and on a
    road with an odd number [2 * m + 1] of lanes every lane centre
    [lane * LANE_WIDTH], for a lane from [-m] to [m] -- where the player
    rides and where entities are spawned --, lies exactly half a lane width
    right of the separator numbered [m + lane] and half a lane width left of
    the next one. *)
Theorem lane_centres_lie_between_separators (m lane : Z) :
  (0 <= m)%Z -> (- m <= lane <= m)%Z ->
  let lines := separators (2 * m + 1) in
  List.length lines = Z.to_nat (2 * m + 2)
  /\ exists left right,
       nth_error lines (Z.to_nat (m + lane)) = Some left
       /\ nth_error lines (S (Z.to_nat (m + lane))) = Some right
       /\ left + LANE_WIDTH / 2 == inject_Z lane * LANE_WIDTH
       /\ right - LANE_WIDTH / 2 == inject_Z lane * LANE_WIDTH.
Proof.
  intros Hm Hl lines. unfold lines, separators.
  assert (E : (2 * m + 1 <? 0)%Z = false) by (apply Z.ltb_ge; lia).
  rewrite E. split.
  - rewrite length_map, length_seq. lia.
  - set (f := fun i => - (inject_Z (2 * m + 1) * LANE_WIDTH) / 2
                       + inject_Z (Z.of_nat i) * LANE_WIDTH).
    exists (f (Z.to_nat (m + lane))), (f (S (Z.to_nat (m + lane)))).
    assert (Hnth : forall i, (i < S (Z.to_nat (2 * m + 1)))%nat ->
                             nth_error (map f (seq 0 (S (Z.to_nat (2 * m + 1))))) i
                             = Some (f i)).
    { intros i Hi. rewrite nth_error_map, nth_error_seq.
      destruct (i <? S (Z.to_nat (2 * m + 1)))%nat eqn:Ei; [reflexivity|].
      apply Nat.ltb_ge in Ei. lia. }
    split; [apply Hnth; lia|]. split; [apply Hnth; lia|].
    unfold f. rewrite Nat2Z.inj_succ, !Z2Nat.id by lia.
    unfold Z.succ. rewrite !inject_Z_plus, !inject_Z_mult.
    change (inject_Z 2) with 2. change (inject_Z 1) with 1.
    split; field.
Qed.

End LaneGuideFacts.


(** * One life per frame *)

Section OneLifePerFrame.
Import LevelManager.
Context {T : Types}.

Lemma collide_damageStep st now pp prevZ obj s :
  damageStep s (snd (collide st now pp prevZ obj s)).
Proof.
  unfold damageStep, collide, dispatchPlayerHit, collectItem, Player.checkHit,
    when, bind, emit, ret.
  repeat match goal with
         | |- context [if ?b then _ else _] => destruct b eqn:?; simpl
         | |- context [match ?x with Some _ => _ | None => _ end] =>
             destruct x; simpl
         end;
    rewrite ?count_app; unfold count; simpl;
    try (left; split; [reflexivity | lia]).
  all: right; repeat split; try lia.
  all: match goal with
       | H : isInvincible _ || _ = false |- _ =>
           apply orb_false_iff in H as [H _]; exact H
       end.
Qed.

Lemma stepObject_damageStep st now sd dist pp obj s :
  damageStep s (snd (stepObject st now sd dist pp obj s)).
Proof.
  unfold stepObject, bind.
  pose proof (alienShoot_frame (advance sd dist obj) s) as [_ [Hl Hi]].
  destruct (alienShoot (advance sd dist obj) s) as [[o1 sp] s1].
  simpl in Hl, Hi.
  pose proof (collide_damageStep st now pp (vz (position obj)) o1 s1) as Hc.
  destruct (collide st now pp (vz (position obj)) o1 s1) as [[[o2 k] ch] s2].
  unfold ret. cbn [snd] in *.
  unfold damageStep in *. rewrite Hl, Hi in Hc. exact Hc.
Qed.

Lemma damageStep_trans s1 s2 s3 : damageStep s1 s2 -> damageStep s2 s3 -> damageStep s1 s3.
Proof.
  unfold damageStep.
  intros [[H1 H2] | [H1 [H2 H3]]] [[H4 H5] | [H4 [H5 H6]]].
  - left. split; congruence.
  - right. repeat split; congruence.
  - right. repeat split; congruence.
  - congruence.
Qed.

Lemma stepObjects_damageStep st now sd dist pp objs : forall s,
  damageStep s (snd (stepObjects st now sd dist pp objs s)).
Proof.
  induction objs as [|obj rest IH]; intro s.
  - left. split; reflexivity.
  - rewrite stepObjects_cons.
    pose proof (stepObject_damageStep st now sd dist pp obj s) as H1.
    destruct (stepObject st now sd dist pp obj s) as [r s1].
    specialize (IH s1).
    destruct (stepObjects st now sd dist pp rest s1) as [p s2].
    cbn [snd] in *. eapply damageStep_trans; eassumption.
Qed.

(** X24.  One frame costs at most one life, however many hazards overlap the
    player in it: the first unprotected hit makes the player invincible and
    every later hit of the frame is free.  A frame that starts with the
    player invincible calls [takeDamage] not at all, and no frame of the
    level manager ends the player's invincibility. *)
Theorem a_frame_costs_one_life_at_most
        (st : Store) (delta : Q) (now : Z) (playerObj : option Vec3)
        (lm : State) (s : Sim) :
  let s' := snd (frame st delta now playerObj lm s) in
  (count isTakeDamage (log s') <= S (count isTakeDamage (log s)))%nat
  /\ (isInvincible s = true ->
      count isTakeDamage (log s') = count isTakeDamage (log s)
      /\ isInvincible s' = true)
  /\ (count isTakeDamage (log s') = S (count isTakeDamage (log s)) ->
      isInvincible s = false /\ isInvincible s' = true).
Proof.
  intro s'.
  assert (H : damageStep s s').
  { unfold s'.
    destruct (GameStatus_eqb (status st) PLAYING) eqn:Est.
    - apply GameStatus_eqb_eq in Est.
      destruct (frame_store st delta now playerObj lm s Est) as [_ ->].
      pose proof (stepObjects_damageStep st now (Qmin delta 0.05)
                    (speed st * Qmin delta 0.05) (playerPosOf playerObj)
                    (objectsRef lm) s) as H1.
      eapply damageStep_trans; [exact H1|].
      left.
      match goal with
      | |- context [spawnPolicy ?a ?b ?c ?d ?e] =>
          split; [|rewrite (silent_log (spawnPolicy a b c d) e
                                        (spawnPolicy_silent a b c d)); reflexivity];
          unfold spawnPolicy, getRandomLane, bind, Math_random, uuidv4, ret
      end.
      repeat match goal with
             | |- context [if ?b then _ else _] => destruct b; simpl
             end; reflexivity.
    - rewrite frame_not_playing; [left; split; reflexivity|].
      intro E. apply GameStatus_eqb_eq in E. congruence. }
  destruct H as [[H1 H2] | [H1 [H2 H3]]].
  - repeat split; try lia; try congruence.
  - repeat split; try lia; try congruence.
Qed.

End OneLifePerFrame.


(** * The further properties on concrete inputs *)

Section Cases.
Import LevelManager Scenario Cases.

Lemma draws_of_world (r : Q) :
  0 <= r -> r < 1 -> forall n, 0 <= random (world r) n < 1.
Proof. intros H0 H1 n. split; assumption. Qed.


Lemma random_lane_is_on_the_road_witness :
  (- (5 / 2) <= fst (getRandomLane 5 (world 0.5)) <= 5 / 2)%Z.
Proof.
  apply (random_lane_is_on_the_road 5 (world 0.5)).
  - lia.
  - apply Qle_bool_iff. reflexivity.
  - reflexivity.
Defined.

Lemma entities_only_move_forward_witness :
  let m := moved (fst (stepObject (T:=types120) (playing 1 []) 1000
                                  (Qmin 0.2 0.05) (speed (playing 1 []) * Qmin 0.2 0.05)
                                  origin snowman (world 0.5))) in
  id m = id snowman /\ type m = type snowman.
Proof.
  destruct (entities_only_move_forward (T:=types120) (playing 1 []) 1000 0.2 origin
              snowman (world 0.5)) as [H1 [H2 _]].
  - apply Qle_bool_iff. reflexivity.
  - apply Qle_bool_iff. reflexivity.
  - split; [exact H1 | exact H2].
Defined.

Lemma inactive_entity_is_inert_witness :
  log (snd (stepObject (T:=types120) (playing 1 []) 1000 0.05 0.5 origin
                       meltedSnowman (world 0.5)))
  = log (world 0.5).
Proof.
  apply (proj2 (inactive_entity_is_inert (T:=types120) (playing 1 []) 1000 0.05 0.5
                  origin meltedSnowman (world 0.5))).
  reflexivity.
Defined.

Lemma spawns_land_on_the_spawn_line_witness :
  (List.length (fst (fst (fst (spawnPolicy (T:=types60) (playing 1 []) 10 150
                                          [farSnowman] (world 0.5)))))
   <= 2)%nat.
Proof.
  apply (spawns_land_on_the_spawn_line (T:=types60) (playing 1 []) 10 150
           [farSnowman] (world 0.5)).
  apply Qle_bool_iff. reflexivity.
Defined.

Lemma spawns_are_centred_on_lanes_witness :
  Forall (fun o => exists lane,
              (- (laneCount (playing 1 []) / 2) <= lane <= laneCount (playing 1 []) / 2)%Z
              /\ vx (position o) = inject_Z lane * LANE_WIDTH (Types:=types60))
         (fst (fst (fst (spawnPolicy (T:=types60) (playing 1 []) 10 150
                                     [farSnowman] (world 0.5))))).
Proof.
  apply (spawns_are_centred_on_lanes (T:=types60) (playing 1 []) 10 150
           [farSnowman] (world 0.5)).
  - apply draws_of_world; [apply Qle_bool_iff|]; reflexivity.
  - simpl. lia.
Defined.

Lemma aliens_only_from_level_two_witness :
  type (mkObject 0 OBSTACLE (mkVec3 (inject_Z 0 * 2.2) 0 (-(60))) true
                 (Some "#ffffff"%string) None None None None) <> MISSILE.
Proof.
  apply (aliens_only_from_level_two (T:=types60) (playing 1 []) 10 150
           [farSnowman] (world 0.5)).
  vm_compute. left. reflexivity.
Defined.

Lemma due_letter_is_an_uncollected_one_witness :
  snd (fst (fst (spawnPolicy (T:=types60) (playing 1 [0; 1; 3]%Z) 200 150
                             [farSnowman] (world 0.5))))
  = 150 + getLetterInterval (level (playing 1 [0; 1; 3]%Z)).
Proof.
  apply (due_letter_is_an_uncollected_one (T:=types60) (playing 1 [0; 1; 3]%Z) 200 150
           [farSnowman] (world 0.5) 2).
  - reflexivity.
  - apply Qle_bool_iff. reflexivity.
  - simpl. tauto.
  - reflexivity.
  - split; [apply Qle_bool_iff|]; reflexivity.
Defined.

Lemma z_zone_covers_the_whole_move_witness :
  inZZone origin (-(40)) (mkObject 9 MISSILE (mkVec3 0 1 30) true None None None None None)
  = true.
Proof.
  apply (z_zone_covers_the_whole_move origin (-(40))
           (mkObject 9 MISSILE (mkVec3 0 1 30) true None None None None None)).
  - apply Qle_bool_iff. reflexivity.
  - exists 1. split; [split; apply Qle_bool_iff; reflexivity | reflexivity].
Defined.

Lemma other_lanes_never_collide_witness :
  log (snd (stepObject (T:=types120) (playing 1 []) 1000 0.05 0.5 (mkVec3 2.2 0 0)
                       snowman (world 0.5)))
  = log (world 0.5).
Proof.
  apply (other_lanes_never_collide (T:=types120) (playing 1 []) 1000 0.05 0.5
           (mkVec3 2.2 0 0) snowman (world 0.5)).
  - discriminate.
  - left. apply Qle_bool_iff. reflexivity.
Defined.

Lemma jump_of_one_and_a_half_clears_obstacles_witness :
  let r := stepObject (T:=types120) (playing 1 []) 1000 0.05 0.5 (mkVec3 0 1.6 0)
                      snowman (world 0.5) in
  log (snd r) = log (world 0.5) /\ active (moved (fst r)) = true.
Proof.
  apply (jump_of_one_and_a_half_clears_obstacles (T:=types120) (playing 1 []) 1000
           0.05 0.5 (mkVec3 0 1.6 0) snowman (world 0.5)).
  - reflexivity.
  - reflexivity.
  - reflexivity.
  - reflexivity.
  - apply Qle_bool_iff. reflexivity.
  - apply Qle_bool_iff. reflexivity.
Defined.

Lemma collectible_in_reach_is_collected_witness :
  active (moved (fst (stepObject (T:=types120) (playing 1 []) 1000 0.05 0.5 origin
                                 letterM (world 0.5)))) = false.
Proof.
  apply (collectible_in_reach_is_collected (T:=types120) (playing 1 []) 1000 0.05 0.5
           origin letterM (world 0.5)).
  - right. reflexivity.
  - reflexivity.
  - reflexivity.
  - reflexivity.
  - reflexivity.
Defined.


Lemma identifiers_stay_unique_witness :
  idsWithin 0
    (uuidIx (snd (run (T:=types120)
                      [Frame (playing 2 []) 0.05 1000 (Some origin);
                       Render level3;
                       Frame level3 0.05 1050 (Some origin)]
                      numbered counterAtFive)))
    (objectsRef (fst (run (T:=types120)
                          [Frame (playing 2 []) 0.05 1000 (Some origin);
                           Render level3;
                           Frame level3 0.05 1050 (Some origin)]
                          numbered counterAtFive))).
Proof.
  apply (identifiers_stay_unique (T:=types120)
           [Frame (playing 2 []) 0.05 1000 (Some origin);
            Render level3;
            Frame level3 0.05 1050 (Some origin)]
           numbered counterAtFive).
  split.
  - simpl. repeat constructor; simpl; intuition discriminate.
  - simpl. repeat constructor; simpl; lia.
Defined.

Lemma burst_revives_at_most_thirty_witness :
  List.length (filter Particles.alive
                      (fst (Particles.handleExplosion (G:=sampleTrig) origin "#ff9999"
                                                      fourParticles (world 0.5))))
  = (List.length (filter Particles.alive fourParticles)
     + Nat.min 30 (List.length (filter (fun p => negb (Particles.alive p))
                                       fourParticles)))%nat.
Proof.
  apply (burst_revives_at_most_thirty (G:=sampleTrig) origin "#ff9999" fourParticles
           (world 0.5)).
  apply draws_of_world; [apply Qle_bool_iff|]; reflexivity.
Defined.

Lemma frames_only_age_particles_witness :
  (List.length (filter Particles.alive (Particles.useFrame true 0.016 fourParticles))
   <= List.length (filter Particles.alive fourParticles))%nat.
Proof.
  apply (frames_only_age_particles 0.016 fourParticles 0).
  apply Qle_bool_iff. reflexivity.
Defined.

Lemma jump_state_stays_consistent_witness :
  (Player.jumpsPerformed
     (fst (fst (PlayerFrame.run (T:=types120) (G:=sampleTrig)
                  [PlayerFrame.Input_ (playing 1 []) (Player.KeyDown "ArrowUp");
                   PlayerFrame.Frame (playing 1 []) 0.016 1000 true;
                   PlayerFrame.Input_ (playing 1 []) (Player.KeyDown "ArrowUp")]
                  (standing, atRest) (world 0.5))))
   <= 1)%Z.
Proof.
  apply (jump_state_stays_consistent (T:=types120) (G:=sampleTrig)
           [PlayerFrame.Input_ (playing 1 []) (Player.KeyDown "ArrowUp");
            PlayerFrame.Frame (playing 1 []) 0.016 1000 true;
            PlayerFrame.Input_ (playing 1 []) (Player.KeyDown "ArrowUp")]
           true atRest (world 0.5)).
  repeat constructor.
Defined.

Lemma invincibility_ends_in_the_players_frame_witness :
  count isTakeDamage
        (log (snd (Player.checkHit (playing 1 []) 9000
                     (snd (Player.checkHit (playing 1 []) 1000 (world 0.5))))))
  = (count isTakeDamage (log (world 0.5)) + 1)%nat.
Proof.
  apply (invincibility_ends_in_the_players_frame (T:=types120) (G:=sampleTrig)
           (playing 1 []) 1000 3000 9000 0.016 true standing atRest (world 0.5) 0).
  - reflexivity.
  - reflexivity.
  - reflexivity.
  - left. reflexivity.
Defined.

Lemma player_slides_toward_its_lane_witness :
  PlayerFrame.posX
    (snd (fst (PlayerFrame.useFrame (T:=types120) (G:=sampleTrig) (playing 1 [])
                 (1 # 12) 1000 true (Player.mkState 1 false 0 0 0 (Some 0)) atRest
                 (world 0.5))))
  == inject_Z 1 * LANE_WIDTH (Types:=types120).
Proof.
  apply (proj1 (player_slides_toward_its_lane (T:=types120) (G:=sampleTrig)
                  (playing 1 []) (1 # 12) 1000 true
                  (Player.mkState 1 false 0 0 0 (Some 0)) atRest (world 0.5))).
  - discriminate.
  - left. reflexivity.
  - reflexivity.
Defined.

Lemma inputs_move_one_lane_at_most_witness :
  (Z.abs (Player.lane (fst (Player.handleInput (playing 1 [])
                              (Player.TouchEnd 80 5) standing (world 0.5)))
          - Player.lane standing)
   <= 1)%Z.
Proof.
  apply (proj1 (inputs_move_one_lane_at_most (playing 1 []) (Player.TouchEnd 80 5)
                  standing (world 0.5) ltac:(simpl; lia)
                  ltac:(split; vm_compute; discriminate))).
Defined.

Lemma shop_never_offers_owned_upgrades_witness :
  ~ In "DOUBLE_JUMP"%string (map Shop.itemId (Shop.items (S:=reversing) true false)).
Proof.
  apply (shop_never_offers_owned_upgrades (S:=reversing) true false).
  reflexivity.
Defined.

Lemma lane_centres_lie_between_separators_witness :
  List.length (LaneGuides.separators (T:=types120) (2 * 2 + 1)) = Z.to_nat (2 * 2 + 2).
Proof.
  apply (lane_centres_lie_between_separators (T:=types120) 2 (-1)).
  - lia.
  - lia.
Defined.

Lemma a_frame_costs_one_life_at_most_witness :
  count isTakeDamage
        (log (snd (frame (T:=types120) (playing 1 []) 0.05 1000 (Some origin) crowded
                         (mkSim (fun _ => 0.5) 0 0 true 500 []))))
  = count isTakeDamage (log (mkSim (fun _ => 0.5) 0 0 true 500 [])).
Proof.
  apply (a_frame_costs_one_life_at_most (T:=types120) (playing 1 []) 0.05 1000
           (Some origin) crowded (mkSim (fun _ => 0.5) 0 0 true 500 [])).
  reflexivity.
Defined.

End Cases.
